(** * An inverted index over a string key-value store

    Shallow embedding of [src/main.cpp]: the [serialize] codec
    ([write_vector], [read_vector]), the in-memory [KVStore] and the
    inverted index [IIndex], followed by the properties of the
    specification.

    Platform fixed by the model (the blob format is host dependent): LP64,
    little-endian, [size_t] and [DocId] 64 bits wide, [sizeof(DocId) = 8].
    The index and its runs are taken on a machine whose allocations
    succeed: there an allocation fails only where the library says so
    ([std::length_error] beyond [max_size()]). The codec is also given with
    the allocator in view ([read_vector_alloc]), where [data.resize] can
    raise [std::bad_alloc]. *)

From Stdlib Require Import ZArith Lia.
From Equations Require Import Equations.
From coqutil Require Import Byte Word.LittleEndianList.
From stdpp Require Import gmap strings list sorting pretty.

Open Scope Z_scope.

(** ** Basic types *)

(** [using DocId = uint64_t]: a [Z] in the range [is_DocId]. *)
Abbreviation DocId := Z (only parsing).
(** [using DocIdVec = std::vector<DocId>]. *)
Abbreviation DocIdVec := (list Z) (only parsing).
(** A [std::string] used as a value: its bytes. *)
Abbreviation blob := (list byte) (only parsing).

Definition is_DocId (d : Z) : Prop := 0 ≤ d < 2 ^ 64.

(** Arithmetic in [size_t]. *)
Definition wrap64 (z : Z) : Z := z mod 2 ^ 64.

(** [sizeof(T)] for [T = DocId], the only instance of the templates. *)
Definition sizeof_T : Z := 8.

(** ** Exceptions and the monads threading them *)

Inductive exn : Set :=
| length_error          (* std::vector grown beyond max_size() *)
| bad_optional_access.  (* std::optional::value() on an empty optional *)

Definition result (A : Type) : Type := exn + A.

Definition M (S A : Type) : Type := S → result (A * S).

Definition ret {S A} (a : A) : M S A := λ s, inr (a, s).

Definition bind {S A B} (m : M S A) (k : A → M S B) : M S B :=
  λ s, match m s with
       | inl e => inl e
       | inr (a, s') => k a s'
       end.

Definition lift {S A} (r : result A) : M S A :=
  λ s, match r with
       | inl e => inl e
       | inr a => inr (a, s)
       end.

Notation "x <- m ;; k" := (bind m (λ x, k))
  (at level 100, m at next level, right associativity).

(** ** The parts of the C++ standard library the program calls *)

Module std.

(** [std::vector<DocId>::max_size()]: [PTRDIFF_MAX / sizeof(DocId)]. *)
Definition max_size : Z := 2 ^ 60 - 1.

(** A vector value: elements in range, size within [max_size()]. *)
Definition is_vector (v : list Z) : Prop :=
  Forall is_DocId v ∧ Z.of_nat (length v) ≤ max_size.

(** The bytes of the array [&data[0] .. &data[size]]. *)
Definition object_bytes (v : list Z) : list byte :=
  flat_map (le_split 8) v.

(** The array of [n] elements whose bytes are [img]. *)
Fixpoint of_object_bytes (n : nat) (img : list byte) : list Z :=
  match n with
  | O => []
  | S n' => le_combine (take 8 img) :: of_object_bytes n' (drop 8 img)
  end.

(** [v.resize(len)]: keeps the first [len] elements, value-initialises the
    new ones. *)
Definition resize (len : Z) (v : list Z) : result (list Z) :=
  if max_size <? len then inl length_error
  else inr (take (Z.to_nat len) v
              ++ replicate (Z.to_nat len - length v)%nat 0).

(** [v.insert(v.begin() + pos, x)]. *)
Definition vector_insert (pos : nat) (x : Z) (v : list Z) : result (list Z) :=
  if max_size <=? Z.of_nat (length v) then inl length_error
  else inr (take pos v ++ x :: drop pos v).

(** [std::lower_bound(v.begin(), v.end(), val, std::less<DocId>())], the
    bisection loop on [(first, len)]; the iterator returned is
    [v.begin() + lower_bound v val]. *)
Equations lower_bound_loop (v : list Z) (val : Z) (first len : nat) : nat
  by wf len lt :=
  lower_bound_loop v val first len with decide (0 < len)%nat := {
  | right _ => first
  | left Hlen =>
    let half := Nat.shiftr len 1 in
    let middle := (first + half)%nat in
    if v !!! middle <? val
    then lower_bound_loop v val (S middle) (len - half - 1)%nat
    else lower_bound_loop v val first half }.
Next Obligation. intros. lia. Qed.
Next Obligation.
  intros. subst half. rewrite Nat.shiftr_div_pow2.
  change (2 ^ 1)%nat with 2%nat. apply Nat.div_lt; lia.
Qed.

Definition lower_bound (v : list Z) (val : Z) : nat :=
  lower_bound_loop v val 0 (length v).

(** [std::binary_search(v.begin(), v.end(), val)]:
    [i = lower_bound(..); return i != last && !(val < *i)]. *)
Definition binary_search (v : list Z) (val : Z) : bool :=
  let i := lower_bound v val in
  negb (i =? length v)%nat && negb (val <? v !!! i).

(** [o.value()]. *)
Definition value {A} (o : option A) : result A :=
  match o with
  | Some a => inr a
  | None => inl bad_optional_access
  end.

(** [std::stringstream]: the character sequence, the get and put positions
    and the stream state ([good] is false once [eofbit | failbit] is set).
    The byte counts of [read] and [write] are [std::streamsize] values;
    those the program forms are below [2 ^ 63], vector sizes being within
    [max_size]. *)
Record stringstream : Type := mk_stringstream
  { str : list byte; gpos : nat; ppos : nat; good : bool }.

(** [std::stringstream ss{}]. *)
Definition stringstream_new : stringstream :=
  {| str := []; gpos := 0; ppos := 0; good := true |}.

(** [std::stringstream ss(s)]. *)
Definition stringstream_of (s : list byte) : stringstream :=
  {| str := s; gpos := 0; ppos := 0; good := true |}.

(** [os.write(src, n)] with [src] the [n] bytes written: unformatted output
    at the put position; nothing on a stream that is not good. *)
Definition write (src : list byte) (os : stringstream) : stringstream :=
  if good os then
    {| str := take (ppos os) (str os) ++ src
                ++ drop (ppos os + length src) (str os);
       gpos := gpos os;
       ppos := ppos os + length src;
       good := true |}
  else os.

(** [is.read(dst, n)] with [mem] the prior contents of the [n] bytes at
    [dst]; returns their new contents. The characters available, at most
    [n], are stored at the front of [dst]; fewer than [n] sets
    [eofbit | failbit]; a stream that is not good extracts nothing. *)
Definition read (n : nat) (mem : list byte) (ist : stringstream)
  : list byte * stringstream :=
  if good ist then
    let got := take n (drop (gpos ist) (str ist)) in
    (got ++ drop (length got) mem,
     {| str := str ist;
        gpos := gpos ist + length got;
        ppos := ppos ist;
        good := (length got =? n)%nat |})
  else (mem, ist).

End std.

(** ** namespace serialize *)

Module serialize.

(** [write_vector(os, data)]: the header, then the bytes of the array. For
    an empty vector [&data[0]] is formed and no byte of it is accessed. *)
Definition write_vector (os : std.stringstream) (data : DocIdVec)
  : std.stringstream :=
  let len := wrap64 (Z.of_nat (length data)) in
  let os := std.write (le_split 8 len) os in
  let os := std.write (take (Z.to_nat (wrap64 (len * sizeof_T)))
                         (std.object_bytes data)) os in
  os.

(** [read_vector(is, data)]: the stream and the vector after the call. The
    results of the two [read] calls are not looked at. *)
Definition read_vector (ist : std.stringstream) (data : DocIdVec)
  : result (std.stringstream * DocIdVec) :=
  let len := 0 in
  let '(mem, ist) := std.read 8 (le_split 8 len) ist in
  let len := le_combine mem in
  match std.resize len data with
  | inl e => inl e
  | inr data =>
    let '(img, ist) := std.read (Z.to_nat (wrap64 (sizeof_T * len)))
                        (std.object_bytes data) ist in
    inr (ist, std.of_object_bytes (length data) img)
  end.

End serialize.

(** ** namespace iidx *)

Module iidx.

Module KVStore.

(** [std::unordered_map<std::string, std::string> _store]. *)
Record t : Type := mk { _store : gmap string blob }.

(** [KVStore() = default]. *)
Definition new : t := {| _store := ∅ |}.

(** [this->_store[k] = v]. *)
Definition insert (k : string) (v : blob) : M t unit :=
  λ s, inr (tt, {| _store := <[k := v]> (_store s) |}).

(** [return this->_store[k]]: [operator[]] value-initialises a missing
    entry. *)
Definition get (k : string) : M t blob :=
  λ s, match _store s !! k with
       | Some v => inr (v, s)
       | None => inr ([], {| _store := <[k := []]> (_store s) |})
       end.

(** [return this->_store.find(k) != this->_store.end()]. *)
Definition exists_ (k : string) : M t bool :=
  λ s, inr (bool_decide (is_Some (_store s !! k)), s).

End KVStore.

Module IIndex.

Record t : Type := mk { _kvstore : KVStore.t }.

(** [IIndex() = default]. *)
Definition new : t := {| _kvstore := KVStore.new |}.

(** A call [this->_kvstore.m(..)]. *)
Definition on_kvstore {A} (m : M KVStore.t A) : M t A :=
  λ idx, match m (_kvstore idx) with
         | inl e => inl e
         | inr (a, kv) => inr (a, {| _kvstore := kv |})
         end.

Definition get_doc_vector (term : string) : M t (option DocIdVec) :=
  b <- on_kvstore (KVStore.exists_ term) ;;
  if b : bool then
    vecstr <- on_kvstore (KVStore.get term) ;;
    let ss := std.stringstream_of vecstr in
    let doc_vec := [] in
    r <- lift (serialize.read_vector ss doc_vec) ;;
    let doc_vec := r.2 in
    ret (Some doc_vec)
  else ret None.

Definition add_new_term (did : DocId) (term : string) : M t unit :=
  let doc_vec := [did] in
  let ss := std.stringstream_new in
  let ss := serialize.write_vector ss doc_vec in
  on_kvstore (KVStore.insert term (std.str ss)).

Definition add_existing_term (did : DocId) (term : string) : M t unit :=
  vecstr <- on_kvstore (KVStore.get term) ;;
  let ss := std.stringstream_of vecstr in
  o <- get_doc_vector term ;;
  doc_vec <- lift (std.value o) ;;
  if negb (std.binary_search doc_vec did) then
    let it := std.lower_bound doc_vec did in
    doc_vec <- lift (std.vector_insert it did doc_vec) ;;
    let ss := std.stringstream_new in
    let ss := serialize.write_vector ss doc_vec in
    on_kvstore (KVStore.insert term (std.str ss))
  else ret tt.

Definition add_term (did : DocId) (term : string) : M t unit :=
  b <- on_kvstore (KVStore.exists_ term) ;;
  if negb b then add_new_term did term
  else add_existing_term did term.

End IIndex.

End iidx.

(** ** Runs of the index *)

(** The [add_term] calls of a list, in order. *)
Fixpoint add_terms (ops : list (DocId * string)) : M iidx.IIndex.t unit :=
  match ops with
  | [] => ret tt
  | (did, term) :: ops' =>
    _ <- iidx.IIndex.add_term did term ;; add_terms ops'
  end.

(** The calls of [main], before the queries. *)
Definition main_adds : list (DocId * string) :=
  [(0, "dog"); (0, "cat"); (1, "cat"); (1, "mouse"); (1, "house");
   (2, "cat"); (2, "dog"); (2, "tree"); (1, "tree")]%string.

(** The blob stored for a posting list: what [add_new_term] and
    [add_existing_term] hand to [KVStore.insert]. *)
Definition blob_of (doc_vec : DocIdVec) : blob :=
  std.str (serialize.write_vector std.stringstream_new doc_vec).

(** ** The fallible operations as the specification words them *)

(** The error kinds the specification gives the codec and the store. *)
Inductive codec_error : Set := Truncated | LengthOverflow.
Inductive store_error : Set := MissingKey.

(** [read(buf)] in the specification's words (section 4.1): the sequence
    and the number of bytes consumed, [Truncated] when the header is
    incomplete, [LengthOverflow] when the declared length exceeds the
    remaining buffer. *)
Definition spec_read (buf : list byte) : codec_error + (list Z * nat) :=
  if (length buf <? 8)%nat then inl Truncated
  else
    let len := le_combine (take 8 buf) in
    if Z.of_nat (length buf - 8) <? len * sizeof_T then inl LengthOverflow
    else inr (std.of_object_bytes (Z.to_nat len) (drop 8 buf),
              (8 + Z.to_nat (len * sizeof_T))%nat).

(** [read_vector], on a fresh stream over [buf] and an empty vector, does
    what [spec_read] says: it raises where [spec_read] fails, and otherwise
    delivers that sequence having consumed that many bytes. *)
Definition read_vector_meets_spec_read (buf : list byte) : Prop :=
  match spec_read buf with
  | inl _ =>
    ∃ e, serialize.read_vector (std.stringstream_of buf) [] = inl e
  | inr (seq, n) =>
    ∃ ist, serialize.read_vector (std.stringstream_of buf) [] = inr (ist, seq)
           ∧ std.gpos ist = n
  end.

(** [get(k)] in the specification's words (section 4.2): the blob put under
    [k], [MissingKey] when [k] is absent. *)
Definition spec_get (k : string) (s : iidx.KVStore.t)
  : store_error + list byte :=
  match iidx.KVStore._store s !! k with
  | Some v => inr v
  | None => inl MissingKey
  end.

(** [KVStore.get] does what [spec_get] says: it raises where [spec_get]
    fails, and otherwise returns that blob. *)
Definition get_meets_spec_get (k : string) (s : iidx.KVStore.t) : Prop :=
  match spec_get k s with
  | inl _ => ∃ e, iidx.KVStore.get k s = inl e
  | inr v => ∃ s', iidx.KVStore.get k s = inr (v, s')
  end.

(** ** Ordered vectors *)

(** A strictly ascending vector, by positions. *)
Definition ascending (v : list Z) : Prop :=
  ∀ i j x y, v !! i = Some x → v !! j = Some y → (i < j)%nat → x < y.

(** Position [p] splits [v] into the elements below [val] and the rest. *)
Definition partition_point (v : list Z) (val : Z) (p : nat) : Prop :=
  (p ≤ length v)%nat
  ∧ (∀ i x, (i < p)%nat → v !! i = Some x → x < val)
  ∧ (∀ i x, (p ≤ i)%nat → v !! i = Some x → val ≤ x).

(** ** Runs and the index they build *)

(** A run the machine can hold: doc-ids are [DocId] values and the calls are
    no more than a vector has room for. *)
Definition feasible (ops : list (Z * string)) : Prop :=
  Forall (λ op, is_DocId op.1) ops ∧ Z.of_nat (length ops) ≤ std.max_size.

(** What the store may hold under [term] after the run [ops]: nothing when
    the term was never added, and otherwise the blob of a non-empty strictly
    ascending vector of exactly the doc-ids added under the term. *)
Definition posting_entry (ops : list (Z * string)) (term : string)
    (entry : option (list byte)) : Prop :=
  match entry with
  | None => ∀ d, (d, term) ∉ ops
  | Some b =>
    ∃ L, b = blob_of L
         ∧ StronglySorted Z.lt L
         ∧ L ≠ []
         ∧ (length L ≤ length ops)%nat
         ∧ ∀ d, d ∈ L ↔ (d, term) ∈ ops
  end.

(** The store of [idx] holds the postings of the run [ops]. *)
Definition represents (idx : iidx.IIndex.t) (ops : list (Z * string))
  : Prop :=
  ∀ term,
    posting_entry ops term
      (iidx.KVStore._store (iidx.IIndex._kvstore idx) !! term).

(** What [get_doc_vector term] returns after the run [ops] on an empty
    index; [inl] when a call raised. *)
Definition lookup_after (ops : list (Z * string)) (term : string)
  : result (option (list Z)) :=
  match add_terms ops iidx.IIndex.new with
  | inl e => inl e
  | inr (_, idx) =>
    match iidx.IIndex.get_doc_vector term idx with
    | inl e => inl e
    | inr (o, _) => inr o
    end
  end.

(** The map inside an index. *)
Abbreviation store_of idx :=
  (iidx.KVStore._store (iidx.IIndex._kvstore idx)).

(** ** Tactics for closed instances *)

Ltac solve_is_vector :=
  split; [repeat constructor; unfold is_DocId; lia | by vm_compute].

Ltac solve_feasible :=
  split; [repeat constructor; unfold is_DocId; simpl; lia | by vm_compute].

(** ** The codec when an allocation can fail *)

(** What a call can raise when [operator new] can fail: an exception of
    [exn], or [std::bad_alloc]. *)
Inductive thrown : Set :=
| raised (e : exn)
| bad_alloc.

(** [v.resize(len)] with the allocator in view: [can_allocate n] tells
    whether storage for [n] elements can be had. [v] is a vector without
    spare capacity, as a default-constructed one is. Growing checks the new
    size ([_M_check_len]) and then allocates the new storage; shrinking, or
    keeping the size, allocates nothing. *)
Definition resize_alloc (can_allocate : Z → bool) (len : Z) (v : list Z)
  : thrown + list Z :=
  let size := Z.of_nat (length v) in
  if size <? len then
    if std.max_size <? len then inl (raised length_error)
    else
      let new_capacity :=
        Z.min std.max_size (size + Z.max size (len - size)) in
      if can_allocate new_capacity
      then inr (v ++ replicate (Z.to_nat len - length v)%nat 0)
      else inl bad_alloc
  else inr (take (Z.to_nat len) v).

(** [read_vector(is, data)] with the allocator in view: [data.resize(len)]
    is the one place where it allocates. *)
Definition read_vector_alloc (can_allocate : Z → bool)
    (ist : std.stringstream) (data : DocIdVec)
  : thrown + (std.stringstream * DocIdVec) :=
  let len := 0 in
  let '(mem, ist) := std.read 8 (le_split 8 len) ist in
  let len := le_combine mem in
  match resize_alloc can_allocate len data with
  | inl e => inl e
  | inr data =>
    let '(img, ist) := std.read (Z.to_nat (wrap64 (sizeof_T * len)))
                        (std.object_bytes data) ist in
    inr (ist, std.of_object_bytes (length data) img)
  end.

(** ** The driver: [print_doc_vector] and [main] *)

(** The character ['\n']. *)
Definition newline : string := String (Ascii.ascii_of_nat 10) EmptyString.

(** [for (auto i : v) std::cout << i << ' ';] on the text written so far:
    each doc-id in decimal, followed by a space. *)
Fixpoint print_ids (v : list Z) (cout : string) : string :=
  match v with
  | [] => cout
  | i :: v' => print_ids v' (cout +:+ pretty i +:+ " ")
  end.

(** [print_doc_vector(idx, term)], on the index and the text written to
    [std::cout] so far. *)
Definition print_doc_vector (term : string)
  : M (iidx.IIndex.t * string) DocIdVec :=
  λ '(idx, cout),
    match iidx.IIndex.get_doc_vector term idx with
    | inl e => inl e
    | inr (dvec, idx) =>
      let cout := cout +:+ term +:+ ": " in
      match dvec with
      | Some v =>
        let cout := print_ids v cout in
        let cout := cout +:+ newline in
        inr (v, (idx, cout))
      | None =>
        let cout := cout +:+ "not found" +:+ newline in
        inr ([], (idx, cout))
      end
    end.

(** How a run of [main] can end other than by returning. *)
Inductive failure : Set :=
| uncaught (e : exn)     (* an exception nobody catches *)
| assertion_failed.      (* an [assert] that does not hold *)

(** [auto v = print_doc_vector(idx, term); assert((v == expected));]. *)
Definition print_and_assert (term : string) (expected : list Z)
    (w : iidx.IIndex.t * string) : failure + (iidx.IIndex.t * string) :=
  match print_doc_vector term w with
  | inl e => inl (uncaught e)
  | inr (v, w') =>
    if bool_decide (v = expected) then inr w' else inl assertion_failed
  end.

(** [main()]: the exit status and the text written to [std::cout]. *)
Definition main : failure + (Z * string) :=
  match add_terms main_adds iidx.IIndex.new with
  | inl e => inl (uncaught e)
  | inr (_, idx) =>
    match print_and_assert "cat" [0; 1; 2] (idx, EmptyString) with
    | inl f => inl f
    | inr w =>
    match print_and_assert "mouse" [1] w with
    | inl f => inl f
    | inr w =>
    match print_and_assert "dog" [0; 2] w with
    | inl f => inl f
    | inr w =>
    match print_and_assert "house" [1] w with
    | inl f => inl f
    | inr w =>
    match print_and_assert "tree" [1; 2] w with
    | inl f => inl f
    | inr (_, cout) => inr (0, cout)
    end end end end end
  end.

(** * Properties *)

(** ** Integers and their bytes *)

Lemma is_DocId_wrap64 z : is_DocId z → wrap64 z = z.
Proof. unfold is_DocId, wrap64. intros. by rewrite Z.mod_small. Qed.

Lemma le_combine_split_DocId z : is_DocId z → le_combine (le_split 8 z) = z.
Proof.
  intros Hz. rewrite le_combine_split.
  change (2 ^ (Z.of_nat 8 * 8)) with (2 ^ 64). by apply is_DocId_wrap64.
Qed.

Lemma le_combine_is_DocId bs : length bs = 8%nat → is_DocId (le_combine bs).
Proof.
  intros Hbs. pose proof (le_combine_bound bs) as H. rewrite Hbs in H.
  exact H.
Qed.

Lemma le_split_le_combine_8 bs :
  length bs = 8%nat → le_split 8 (le_combine bs) = bs.
Proof. intros Hbs. rewrite <- Hbs. apply split_le_combine. Qed.

Section object_bytes.
Import std.

Lemma length_object_bytes v : length (object_bytes v) = (8 * length v)%nat.
Proof.
  unfold object_bytes. induction v as [|x v IH]; [done|].
  cbn [flat_map]. rewrite length_app, length_le_split, IH. simpl. lia.
Qed.

Lemma object_bytes_cons x v :
  object_bytes (x :: v) = le_split 8 x ++ object_bytes v.
Proof. reflexivity. Qed.

(** Reading an array back from its own bytes. *)
Lemma of_object_bytes_object_bytes v rest :
  Forall is_DocId v →
  of_object_bytes (length v) (object_bytes v ++ rest) = v.
Proof.
  induction 1 as [|x v Hx Hv IH]; [done|].
  rewrite object_bytes_cons, <- app_assoc. cbn [length of_object_bytes].
  rewrite take_app_length', drop_app_length' by by rewrite length_le_split.
  by rewrite le_combine_split_DocId, IH.
Qed.

(** Every element decoded from bytes is a [DocId]. *)
Lemma of_object_bytes_is_DocId n img :
  (8 * n ≤ length img)%nat → Forall is_DocId (of_object_bytes n img).
Proof.
  revert img. induction n as [|n IH]; intros img Hlen; simpl; [constructor|].
  constructor.
  - apply le_combine_is_DocId. rewrite length_take. lia.
  - apply IH. rewrite length_drop. lia.
Qed.

(** The bytes of the decoded array are the bytes it was decoded from. *)
Lemma object_bytes_of_object_bytes n img :
  (8 * n ≤ length img)%nat →
  object_bytes (of_object_bytes n img) = take (8 * n) img.
Proof.
  revert img. induction n as [|n IH]; intros img Hlen.
  - by rewrite take_0.
  - cbn [of_object_bytes]. rewrite object_bytes_cons.
    rewrite IH by (rewrite length_drop; lia).
    rewrite le_split_le_combine_8 by (rewrite length_take; lia).
    rewrite take_take_drop. f_equal. lia.
Qed.
End object_bytes.

(** ** Vectors and streams *)

Section streams.
Import std.

Lemma max_size_eq : max_size = 2 ^ 60 - 1.
Proof. reflexivity. Qed.

Lemma resize_ok len v :
  0 ≤ len ≤ max_size →
  ∃ v', resize len v = inr v' ∧ length v' = Z.to_nat len.
Proof.
  intros Hlen. unfold resize.
  destruct (Z.ltb_spec max_size len) as [?|_]; [lia|].
  eexists. split; [done|]. rewrite length_app, length_take, length_replicate.
  lia.
Qed.

Lemma resize_nil len :
  0 ≤ len ≤ max_size → resize len [] = inr (replicate (Z.to_nat len) 0).
Proof.
  intros Hlen. unfold resize.
  destruct (Z.ltb_spec max_size len) as [?|_]; [lia|].
  by rewrite take_nil, Nat.sub_0_r.
Qed.

Lemma resize_length_error len v :
  max_size < len → resize len v = inl length_error.
Proof.
  intros Hlen. unfold resize.
  by destruct (Z.ltb_spec max_size len) as [_|?]; [|lia].
Qed.

Lemma replicate_0_is_DocId n : Forall is_DocId (replicate n 0).
Proof. apply Forall_replicate. unfold is_DocId. lia. Qed.

Lemma le_combine_zeros n : le_combine (replicate n Byte.x00) = 0.
Proof.
  induction n as [|n IH]; [done|].
  change (replicate (S n) Byte.x00) with ([Byte.x00] ++ replicate n Byte.x00).
  by rewrite le_combine_app, IH.
Qed.

(** Bytes of a [size_t] that a short read left untouched do not count. *)
Lemma le_combine_short_read got :
  (length got ≤ 8)%nat →
  le_combine (got ++ drop (length got) (le_split 8 0)) = le_combine got.
Proof.
  intros _. change (le_split 8 0) with (replicate 8 Byte.x00).
  rewrite drop_replicate, le_combine_app, le_combine_zeros.
  by rewrite Z.shiftl_0_l, Z.lor_0_r.
Qed.

(** A read that finds all its [n] bytes. *)
Lemma read_full n mem s g p :
  (g + n ≤ length s)%nat → length mem = n →
  read n mem {| str := s; gpos := g; ppos := p; good := true |}
  = (take n (drop g s),
     {| str := s; gpos := g + n; ppos := p; good := true |}).
Proof.
  intros Hs Hmem. unfold read. cbn [good str gpos ppos].
  assert (Hgot : length (take n (drop g s)) = n)
    by (rewrite length_take, length_drop; lia).
  rewrite Hgot, Nat.eqb_refl, (drop_ge mem), app_nil_r by lia. done.
Qed.

(** A read that reaches the end of the sequence first. *)
Lemma read_short n mem s g p :
  (g ≤ length s < g + n)%nat →
  read n mem {| str := s; gpos := g; ppos := p; good := true |}
  = (drop g s ++ drop (length s - g) mem,
     {| str := s; gpos := length s; ppos := p; good := false |}).
Proof.
  intros Hs. unfold read. cbn [good str gpos ppos].
  rewrite take_ge by (rewrite length_drop; lia).
  rewrite length_drop.
  destruct (Nat.eqb_spec (length s - g) n) as [?|_]; [lia|].
  do 2 f_equal. lia.
Qed.

(** A read on a stream that already failed. *)
Lemma read_failed n mem s g p :
  read n mem {| str := s; gpos := g; ppos := p; good := false |}
  = (mem, {| str := s; gpos := g; ppos := p; good := false |}).
Proof. reflexivity. Qed.

(** A write at the end of the sequence of a good stream appends. *)
Lemma write_append src s g :
  write src {| str := s; gpos := g; ppos := length s; good := true |}
  = {| str := s ++ src; gpos := g; ppos := length (s ++ src);
       good := true |}.
Proof.
  unfold write. cbn [good str gpos ppos].
  rewrite take_ge, drop_ge, app_nil_r, length_app by lia. done.
Qed.

Lemma of_object_bytes_take n m img :
  (8 * n ≤ m)%nat →
  of_object_bytes n (take m img) = of_object_bytes n img.
Proof.
  revert m img. induction n as [|n IH]; intros m img Hm; [done|].
  cbn [of_object_bytes]. rewrite take_take, Nat.min_l by lia.
  replace (drop 8 (take m img)) with (take (m - 8) (drop 8 img))
    by (rewrite take_drop_commute; do 2 f_equal; lia).
  f_equal. apply IH. lia.
Qed.
End streams.

(** ** The codec *)

Section codec.
Import std serialize.

Lemma object_bytes_zeros n :
  object_bytes (replicate n 0) = replicate (8 * n) Byte.x00.
Proof.
  induction n as [|n IH]; [done|].
  cbn [replicate]. rewrite object_bytes_cons, IH.
  replace (8 * S n)%nat with (8 + 8 * n)%nat by lia.
  by rewrite replicate_add.
Qed.

Lemma of_object_bytes_app n img rest :
  (8 * n ≤ length img)%nat →
  of_object_bytes n (img ++ rest) = of_object_bytes n img.
Proof.
  intros Himg.
  rewrite <- (of_object_bytes_take n (length img) (img ++ rest)) by done.
  by rewrite take_app_length.
Qed.

(** What [write_vector] leaves in a fresh stream. *)
Lemma write_vector_new v :
  is_vector v →
  write_vector stringstream_new v
  = {| str := le_split 8 (Z.of_nat (length v)) ++ object_bytes v;
       gpos := 0; ppos := 8 + 8 * length v; good := true |}.
Proof.
  intros [_ Hlen]. rewrite max_size_eq in Hlen.
  unfold write_vector, stringstream_new, sizeof_T.
  rewrite (is_DocId_wrap64 (Z.of_nat (length v))) by (unfold is_DocId; lia).
  rewrite is_DocId_wrap64 by (unfold is_DocId; lia).
  rewrite take_ge by (rewrite length_object_bytes; lia).
  rewrite (write_append _ []), write_append.
  rewrite app_nil_l, length_app, length_le_split, length_object_bytes.
  done.
Qed.

Lemma blob_of_vector v :
  is_vector v →
  blob_of v = le_split 8 (Z.of_nat (length v)) ++ object_bytes v.
Proof. intros Hv. unfold blob_of. by rewrite write_vector_new. Qed.

(** [read_vector] on a fresh stream over any byte sequence and an empty
    vector, in closed form. *)
Lemma read_vector_stringstream_of buf :
  read_vector (stringstream_of buf) [] =
    let len := le_combine (take 8 buf) in
    let n := Z.to_nat len in
    if decide (max_size < len) then inl length_error
    else inr ({| str := buf;
                 gpos := length buf `min` (8 + 8 * n);
                 ppos := 0;
                 good := bool_decide (8 + 8 * n ≤ length buf)%nat |},
              of_object_bytes n
                (drop 8 buf
                   ++ replicate (8 * n - (length buf - 8)) Byte.x00)).
Proof.
  cbv zeta. unfold read_vector, stringstream_of, sizeof_T.
  pose proof (le_combine_bound (take 8 buf)) as Hb.
  destruct (decide (length buf < 8)%nat) as [Hshort|Hhdr].
  - (* the header is incomplete: the stream fails, nothing more is read *)
    rewrite read_short by (simpl; lia). cbv beta iota.
    rewrite drop_0, Nat.sub_0_r, le_combine_short_read by lia.
    rewrite (take_ge buf) in * by lia.
    assert (le_combine buf < 2 ^ 56) as Hlt.
    { eapply Z.lt_le_trans; [apply Hb|].
      apply Z.pow_le_mono_r; lia. }
    rewrite decide_False by (rewrite max_size_eq; lia).
    rewrite resize_nil by (rewrite max_size_eq; lia).
    rewrite read_failed, length_replicate.
    rewrite (drop_ge buf), app_nil_l by lia.
    rewrite object_bytes_zeros.
    replace (length buf - 8)%nat with 0%nat by lia.
    rewrite Nat.sub_0_r, bool_decide_eq_false_2 by lia.
    do 3 f_equal. lia.
  - rewrite read_full by (rewrite ?length_le_split; simpl; lia).
    cbv beta iota. rewrite drop_0.
    destruct (decide (max_size < le_combine (take 8 buf))) as [Hbig|Hfit].
    { by rewrite resize_length_error. }
    rewrite resize_nil by lia.
    rewrite length_replicate, object_bytes_zeros.
    rewrite max_size_eq in Hfit.
    rewrite is_DocId_wrap64 by (unfold is_DocId; lia).
    replace (Z.to_nat (8 * le_combine (take 8 buf)))
      with (8 * Z.to_nat (le_combine (take 8 buf)))%nat by lia.
    set (n := Z.to_nat (le_combine (take 8 buf))).
    destruct (decide (8 + 8 * n ≤ length buf)%nat) as [Hall|Hpart].
    + rewrite read_full
        by (rewrite ?length_replicate; simpl; lia).
      rewrite bool_decide_eq_true_2 by done.
      replace (8 * n - (length buf - 8))%nat with 0%nat by lia.
      rewrite of_object_bytes_take, of_object_bytes_app
        by (rewrite ?length_drop; lia).
      do 3 f_equal. simpl. lia.
    + rewrite read_short by (simpl; lia).
      rewrite bool_decide_eq_false_2 by done.
      rewrite drop_replicate.
      do 3 f_equal. simpl. lia.
Qed.
End codec.

Section codec_claims.
Import std serialize.

(** Decoding the blob of a vector gives the vector back, with the whole
    blob consumed and the stream still good. *)
Lemma read_vector_blob_of v :
  is_vector v →
  read_vector (stringstream_of (blob_of v)) []
  = inr ({| str := blob_of v; gpos := length (blob_of v); ppos := 0;
            good := true |}, v).
Proof.
  intros Hv. pose proof Hv as [Hin Hlen]. rewrite max_size_eq in Hlen.
  rewrite read_vector_stringstream_of, blob_of_vector by done. cbv zeta.
  rewrite take_app_length', drop_app_length' by by rewrite length_le_split.
  rewrite le_combine_split_DocId by (unfold is_DocId; lia).
  rewrite decide_False by (rewrite max_size_eq; lia).
  rewrite Nat2Z.id, length_app, length_le_split, length_object_bytes.
  rewrite of_object_bytes_object_bytes by done.
  rewrite bool_decide_eq_true_2 by lia.
  by rewrite Nat.min_id.
Qed.

(** C3 — codec round trip. For every posting list [L] (a vector of 64-bit
    doc-ids), [write_vector] produces [8 + 8 * size] bytes, and
    [read_vector] applied to these bytes reconstructs exactly [L], having
    consumed them all with the stream still good. *)
Theorem codec_round_trip (L : list Z) :
  is_vector L →
  let bytes := str (write_vector stringstream_new L) in
  length bytes = (8 + 8 * length L)%nat
  ∧ ∃ ist,
      read_vector (stringstream_of bytes) [] = inr (ist, L)
      ∧ gpos ist = length bytes
      ∧ good ist = true.
Proof.
  intros HL bytes. pose proof HL as [Hids Hlen]. rewrite max_size_eq in Hlen.
  assert (bytes = le_split 8 (Z.of_nat (length L)) ++ object_bytes L)
    as Hbytes by (subst bytes; by rewrite write_vector_new).
  assert (length bytes = (8 + 8 * length L)%nat) as Hsize
    by (by rewrite Hbytes, length_app, length_le_split, length_object_bytes).
  split; [done|].
  rewrite read_vector_stringstream_of. cbv zeta.
  assert (le_combine (take 8 bytes) = Z.of_nat (length L)) as ->.
  { rewrite Hbytes, take_app_length' by by rewrite length_le_split.
    apply le_combine_split_DocId. unfold is_DocId. lia. }
  rewrite decide_False, Nat2Z.id by (rewrite max_size_eq; lia).
  eexists. split_and!.
  - f_equal. f_equal. rewrite Hbytes at 1.
    rewrite drop_app_length' by by rewrite length_le_split.
    by apply of_object_bytes_object_bytes.
  - cbn [gpos]. lia.
  - cbn [good]. apply bool_decide_eq_true_2. lia.
Qed.

Lemma codec_round_trip_witness :
  is_vector [1; 42; 2 ^ 40] ∧
  let bytes := str (write_vector stringstream_new [1; 42; 2 ^ 40]) in
  length bytes = (8 + 8 * length [1; 42; 2 ^ 40])%nat
  ∧ ∃ ist,
      read_vector (stringstream_of bytes) [] = inr (ist, [1; 42; 2 ^ 40])
      ∧ gpos ist = length bytes
      ∧ good ist = true.
Proof.
  split; [solve_is_vector|].
  apply (codec_round_trip [1; 42; 2 ^ 40]). solve_is_vector.
Defined.

(** An empty buffer and a buffer holding only a header that declares two
    elements: the specification's [read] fails on both, [read_vector]
    raises on neither. *)
Lemma read_vector_not_spec_read :
  ¬ read_vector_meets_spec_read []
  ∧ ¬ read_vector_meets_spec_read (le_split 8 2).
Proof.
  split; intros [e He]; vm_compute in He; discriminate He.
Qed.

(** The count [read_vector] takes from the header: the bytes present at
    the get position, at most eight, the missing ones counting as zero. *)
Lemma read_header_count s g p :
  (g ≤ length s)%nat →
  le_combine
    (read 8 (le_split 8 0)
       {| str := s; gpos := g; ppos := p; good := true |}).1
  = le_combine (take 8 (drop g s)).
Proof.
  intros Hg. destruct (decide (length s < g + 8)%nat) as [Hshort|Hhdr].
  - rewrite read_short by lia. cbn [fst].
    replace (length s - g)%nat with (length (drop g s))
      by (rewrite length_drop; lia).
    rewrite le_combine_short_read by (rewrite length_drop; lia).
    by rewrite (take_ge (drop g s)) by (rewrite length_drop; lia).
  - by rewrite read_full by (rewrite ?length_le_split; lia).
Qed.

(** Resizing a fresh vector: the size check, then the allocation, then
    what [resize] gives when storage is there. *)
Lemma resize_alloc_fresh can_allocate len :
  0 ≤ len →
  resize_alloc can_allocate len []
  = if decide (max_size < len) then inl (raised length_error)
    else if decide (0 < len ∧ can_allocate len = false) then inl bad_alloc
    else match resize len [] with
         | inl e => inl (raised e)
         | inr v => inr v
         end.
Proof.
  intros Hlen. unfold resize_alloc. cbn [length]. change (Z.of_nat 0) with 0.
  destruct (decide (max_size < len)) as [Hbig|Hfit].
  { rewrite max_size_eq in Hbig.
    destruct (Z.ltb_spec 0 len); [|lia].
    by destruct (Z.ltb_spec max_size len); [|rewrite max_size_eq in *; lia]. }
  rewrite resize_nil by lia.
  destruct (Z.ltb_spec 0 len) as [Hpos|Hzero].
  - destruct (Z.ltb_spec max_size len); [lia|].
    replace (Z.min max_size (0 + Z.max 0 (len - 0))) with len by lia.
    rewrite app_nil_l, Nat.sub_0_r.
    destruct (can_allocate len) eqn:Hca.
    + by rewrite decide_False by (intros [_ ?]; done).
    + by rewrite decide_True.
  - rewrite decide_False by lia.
    replace len with 0 by lia. done.
Qed.

(** [read_vector] into a fresh vector, with the allocator in view: the two
    ways [resize] can raise, and otherwise what [read_vector] does when
    storage is there. *)
Lemma read_vector_alloc_fresh can_allocate s g p :
  (g ≤ length s)%nat →
  read_vector_alloc can_allocate
    {| str := s; gpos := g; ppos := p; good := true |} []
  = let len := le_combine (take 8 (drop g s)) in
    if decide (max_size < len) then inl (raised length_error)
    else if decide (0 < len ∧ can_allocate len = false) then inl bad_alloc
    else match read_vector
                 {| str := s; gpos := g; ppos := p; good := true |} []
         with
         | inl e => inl (raised e)
         | inr r => inr r
         end.
Proof.
  intros Hg. cbv zeta. unfold read_vector_alloc, read_vector.
  pose proof (read_header_count s g p Hg) as Hcount.
  destruct (read 8 (le_split 8 0) _) as [mem ist1]. cbn [fst] in Hcount.
  rewrite Hcount.
  pose proof (le_combine_bound (take 8 (drop g s))) as Hb.
  rewrite resize_alloc_fresh by lia.
  destruct (decide (max_size < _)) as [|Hfit]; [done|].
  destruct (decide (0 < _ ∧ _)) as [|Hca]; [done|].
  destruct (resize _ []) as [e|data]; [done|].
  by destruct (read _ (object_bytes data) ist1) as [img ist2].
Qed.

(** C5, amended — what [read_vector] does on every input buffer, against
    the specification's [read], with the allocator in view. It raises
    [std::length_error] when the declared count exceeds [max_size()] and
    [std::bad_alloc] when the vector of the declared count cannot be
    allocated. Otherwise: where [read] succeeds, [read_vector] consumes
    exactly [8 + len * sizeof(elem)] bytes and delivers the same sequence;
    where [read] fails with [Truncated], [read_vector] returns normally
    with [eofbit | failbit] set and a vector of zeros whose size is the
    count read from the header bytes present; where [read] fails with
    [LengthOverflow], [read_vector] returns normally with
    [eofbit | failbit] set and a vector of the declared size, decoded from
    the bytes present and zero where bytes are missing. *)
Theorem read_vector_against_spec_read (can_allocate : Z → bool)
    (buf : list byte) :
  read_vector_alloc can_allocate (stringstream_of buf) [] =
    let len := le_combine (take 8 buf) in
    if decide (max_size < len) then inl (raised length_error)
    else if decide (0 < len ∧ can_allocate len = false) then inl bad_alloc
    else
      match spec_read buf with
      | inr (seq, n) =>
        inr ({| str := buf; gpos := n; ppos := 0; good := true |}, seq)
      | inl Truncated =>
        inr ({| str := buf; gpos := length buf; ppos := 0; good := false |},
             replicate (Z.to_nat len) 0)
      | inl LengthOverflow =>
        inr ({| str := buf; gpos := length buf; ppos := 0; good := false |},
             of_object_bytes (Z.to_nat len)
               (drop 8 buf
                  ++ replicate (8 * Z.to_nat len - (length buf - 8))
                       Byte.x00))
      end.
Proof.
  unfold stringstream_of. rewrite read_vector_alloc_fresh by lia.
  fold (stringstream_of buf). rewrite read_vector_stringstream_of.
  cbv zeta. rewrite drop_0. unfold spec_read, sizeof_T.
  pose proof (le_combine_bound (take 8 buf)) as Hb.
  set (len := le_combine (take 8 buf)) in *.
  destruct (decide (max_size < len)) as [|Hfit]; [done|].
  destruct (decide (0 < len ∧ _)) as [|_]; [done|].
  destruct (Nat.ltb_spec (length buf) 8) as [Hshort|Hhdr].
  - rewrite (drop_ge buf), app_nil_l by lia.
    rewrite bool_decide_eq_false_2, Nat.min_l by lia.
    replace (length buf - 8)%nat with 0%nat by lia.
    rewrite Nat.sub_0_r, <- object_bytes_zeros.
    rewrite <- (app_nil_r (object_bytes _)).
    rewrite <- (length_replicate (Z.to_nat len) 0) at 1.
    by rewrite of_object_bytes_object_bytes by apply replicate_0_is_DocId.
  - destruct (Z.ltb_spec (Z.of_nat (length buf - 8)) (len * 8))
      as [Hpart|Hall].
    + by rewrite bool_decide_eq_false_2, Nat.min_l by lia.
    + rewrite bool_decide_eq_true_2, Nat.min_r by lia.
      replace (8 * Z.to_nat len - (length buf - 8))%nat with 0%nat by lia.
      rewrite of_object_bytes_app by (rewrite length_drop; lia).
      do 3 f_equal. lia.
Qed.
End codec_claims.

(** ** Ordered search and insertion *)

Section search.
Import std.
Implicit Types (v : list Z) (val : Z).

Lemma StronglySorted_ascending v : StronglySorted Z.lt v → ascending v.
Proof.
  intros Hv i j x y Hi Hj Hij.
  rewrite <- (take_drop j v) in Hv.
  apply (StronglySorted_app_1_elem_of _ _ _ x y) in Hv; [done| |].
  - apply list_elem_of_lookup. exists i. by rewrite lookup_take_lt.
  - apply list_elem_of_lookup. exists 0%nat.
    by rewrite lookup_drop, Nat.add_0_r.
Qed.

Lemma shiftr_1_lt len : (0 < len)%nat → (Nat.shiftr len 1 < len)%nat.
Proof.
  intros Hlen. rewrite Nat.shiftr_div_pow2.
  change (2 ^ 1)%nat with 2%nat. apply Nat.div_lt; lia.
Qed.

(** The bisection keeps everything before [first] below [val] and
    everything from [first + len] on at or above it, and ends with
    [len = 0]. *)
Lemma lower_bound_loop_spec v val first len :
  ascending v →
  (first + len ≤ length v)%nat →
  (∀ i x, (i < first)%nat → v !! i = Some x → x < val) →
  (∀ i x, (first + len ≤ i)%nat → v !! i = Some x → val ≤ x) →
  partition_point v val (lower_bound_loop v val first len).
Proof.
  intros Hasc. funelim (lower_bound_loop v val first len);
    intros Hbound Hlo Hhi.
  - pose proof (shiftr_1_lt len Hlen) as Hhalf.
    set (half := Nat.shiftr len 1) in *.
    destruct (lookup_lt_is_Some_2 v (first + half)) as [m Hm]; [lia|].
    rewrite (list_lookup_total_correct _ _ _ Hm).
    destruct (Z.ltb_spec m val) as [Hlt|Hge].
    + apply H; [done|lia| |intros i x ?; apply Hhi; lia].
      intros i x Hi Hx.
      destruct (decide (i = first + half)%nat) as [->|Hne].
      * congruence.
      * pose proof (Hasc i (first + half)%nat x m Hx Hm). lia.
    + apply H0; [done|lia|done|].
      intros i x Hi Hx.
      destruct (decide (i = first + half)%nat) as [->|Hne].
      * assert (x = m) by congruence. lia.
      * pose proof (Hasc (first + half)%nat i m x Hm Hx). lia.
  - split; [lia|]. split; [done|]. intros i x ?. apply Hhi. lia.
Qed.

Lemma lower_bound_spec v val :
  StronglySorted Z.lt v → partition_point v val (lower_bound v val).
Proof.
  intros Hv. apply lower_bound_loop_spec.
  - by apply StronglySorted_ascending.
  - simpl. lia.
  - intros i x ?. lia.
  - intros i x Hi Hx. apply lookup_lt_Some in Hx. simpl in Hi. lia.
Qed.

Lemma partition_point_take v val p :
  partition_point v val p → Forall (λ x, x < val) (take p v).
Proof.
  intros (Hp & Hlo & _). apply Forall_lookup. intros i x Hx.
  assert (i < p)%nat as Hi.
  { apply lookup_lt_Some in Hx. rewrite length_take in Hx. lia. }
  rewrite lookup_take_lt in Hx by done. eauto.
Qed.

Lemma partition_point_drop v val p :
  partition_point v val p → Forall (λ x, val ≤ x) (drop p v).
Proof.
  intros (Hp & _ & Hhi). apply Forall_lookup. intros i x Hx.
  rewrite lookup_drop in Hx. apply (Hhi (p + i)%nat); [lia|done].
Qed.

(** On a strictly ascending vector [binary_search] decides membership. *)
Lemma binary_search_spec v val :
  StronglySorted Z.lt v → binary_search v val = bool_decide (val ∈ v).
Proof.
  intros Hv. pose proof (lower_bound_spec v val Hv) as Hp.
  pose proof (partition_point_take _ _ _ Hp) as Hlo.
  destruct Hp as (Hlen & _ & Hhi).
  unfold binary_search. set (p := lower_bound v val) in *.
  destruct (Nat.eqb_spec p (length v)) as [Hend|Hin]; simpl.
  - symmetry. apply bool_decide_eq_false_2. intros Hval.
    rewrite Hend, take_ge in Hlo by lia.
    rewrite Forall_forall in Hlo. apply Hlo in Hval. lia.
  - destruct (lookup_lt_is_Some_2 v p) as [m Hm]; [lia|].
    rewrite (list_lookup_total_correct _ _ _ Hm).
    pose proof (Hhi p m (Nat.le_refl _) Hm) as Hge.
    destruct (Z.ltb_spec val m) as [Hlt|Hle]; simpl; symmetry.
    + apply bool_decide_eq_false_2. intros Hval.
      apply list_elem_of_lookup in Hval as [j Hj].
      destruct (decide (j < p)%nat) as [Hjp|Hjp].
      * rewrite Forall_lookup in Hlo.
        specialize (Hlo j val). rewrite lookup_take_lt in Hlo by done.
        specialize (Hlo Hj). lia.
      * destruct (decide (j = p)) as [->|Hne];
          [assert (m = val) by congruence; lia|].
        pose proof (StronglySorted_ascending v Hv p j m val Hm Hj). lia.
    + apply bool_decide_eq_true_2.
      assert (m = val) as <- by lia. by eapply list_elem_of_lookup_2.
Qed.

(** Inserting an absent value at its lower bound keeps the vector
    strictly ascending. *)
Lemma insert_at_lower_bound_sorted v val :
  StronglySorted Z.lt v → val ∉ v →
  StronglySorted Z.lt
    (take (lower_bound v val) v ++ val :: drop (lower_bound v val) v).
Proof.
  intros Hv Hval. pose proof (lower_bound_spec v val Hv) as Hp.
  pose proof (partition_point_take _ _ _ Hp) as Hlo.
  pose proof (partition_point_drop _ _ _ Hp) as Hhi.
  set (p := lower_bound v val) in *.
  rewrite <- (take_drop p v) in Hv, Hval.
  apply StronglySorted_app in Hv as (Hcross & Htake & Hdrop).
  rewrite Forall_forall in Hlo. rewrite Forall_forall in Hhi.
  apply StronglySorted_app. split_and!; [|done|].
  - intros x1 x2 Hx1 [->|Hx2]%elem_of_cons; [by apply Hlo|by apply Hcross].
  - apply StronglySorted_cons. split; [|done].
    apply Forall_forall. intros x Hx.
    assert (x ≠ val) by (intros ->; apply Hval; set_solver).
    apply Hhi in Hx. lia.
Qed.

Lemma elem_of_insert_at v val p x :
  x ∈ take p v ++ val :: drop p v ↔ x = val ∨ x ∈ v.
Proof.
  rewrite <- (take_drop p v) at 3.
  rewrite !elem_of_app, elem_of_cons. tauto.
Qed.

Lemma vector_insert_ok pos x v :
  Z.of_nat (length v) < max_size →
  vector_insert pos x v = inr (take pos v ++ x :: drop pos v).
Proof.
  intros Hlen. unfold vector_insert.
  by destruct (Z.leb_spec max_size (Z.of_nat (length v))); [lia|].
Qed.

Lemma length_insert_at v val p :
  length (take p v ++ val :: drop p v) = S (length v).
Proof.
  rewrite length_app, length_cons, length_take, length_drop. lia.
Qed.
End search.

(** ** The store *)

Section store.
Import iidx.
Implicit Types (s : KVStore.t) (k : string) (v : list byte).

Lemma exists_lookup k s :
  KVStore.exists_ k s
  = inr (bool_decide (is_Some (KVStore._store s !! k)), s).
Proof. reflexivity. Qed.

Lemma get_present k s v :
  KVStore._store s !! k = Some v → KVStore.get k s = inr (v, s).
Proof. intros Hk. unfold KVStore.get. by rewrite Hk. Qed.

Lemma get_missing k s :
  KVStore._store s !! k = None →
  KVStore.get k s
  = inr ([], {| KVStore._store := <[k := []]> (KVStore._store s) |}).
Proof. intros Hk. unfold KVStore.get. by rewrite Hk. Qed.

(** On the empty store [get] raises nothing for a key never put. *)
Lemma get_not_spec_get : ¬ get_meets_spec_get "fish" KVStore.new.
Proof. intros [e He]. vm_compute in He. discriminate He. Qed.

(** C8, amended — [get(k)] against the specification's [get]. When
    [exists(k)] holds, [get(k)] returns the blob stored under [k] and
    leaves the store as it is; [get(k)] right after [insert(k, v)]
    returns [v]. When [exists(k)] is false, [get(k)] raises nothing: it
    returns the empty blob and enters [k] with the empty blob. *)
Theorem get_against_spec_get k s v :
  match spec_get k s with
  | inr b =>
    KVStore.exists_ k s = inr (true, s) ∧ KVStore.get k s = inr (b, s)
  | inl MissingKey =>
    KVStore.exists_ k s = inr (false, s)
    ∧ KVStore.get k s
      = inr ([], {| KVStore._store := <[k := []]> (KVStore._store s) |})
  end
  ∧ (_ <- KVStore.insert k v ;; KVStore.get k) s
    = inr (v, {| KVStore._store := <[k := v]> (KVStore._store s) |}).
Proof.
  split.
  - unfold spec_get. rewrite exists_lookup.
    destruct (KVStore._store s !! k) as [b|] eqn:Hk.
    + split; [done|]. by apply get_present.
    + split; [done|]. by apply get_missing.
  - unfold bind, KVStore.insert. apply get_present. simpl.
    apply lookup_insert_eq.
Qed.
End store.

(** ** The index, one call at a time *)

Section index_calls.
Import iidx.
Implicit Types (idx : IIndex.t) (term : string) (L : list Z) (d : Z).

Lemma on_kvstore_exists term idx :
  IIndex.on_kvstore (KVStore.exists_ term) idx
  = inr (bool_decide (is_Some (store_of idx !! term)), idx).
Proof. by destruct idx. Qed.

Lemma on_kvstore_get_present term idx b :
  store_of idx !! term = Some b →
  IIndex.on_kvstore (KVStore.get term) idx = inr (b, idx).
Proof.
  intros Hb. destruct idx as [s]. unfold IIndex.on_kvstore.
  cbn [IIndex._kvstore] in *. by rewrite (get_present _ _ _ Hb).
Qed.

Lemma on_kvstore_insert term b idx :
  IIndex.on_kvstore (KVStore.insert term b) idx
  = inr (tt, {| IIndex._kvstore :=
                  {| KVStore._store := <[term := b]> (store_of idx) |} |}).
Proof. reflexivity. Qed.

(** A lookup of a term the store does not hold. *)
Lemma get_doc_vector_absent term idx :
  store_of idx !! term = None →
  IIndex.get_doc_vector term idx = inr (None, idx).
Proof.
  intros Hterm. unfold IIndex.get_doc_vector, bind.
  by rewrite on_kvstore_exists, Hterm.
Qed.

(** A lookup of a term stored with the blob of a vector. *)
Lemma get_doc_vector_present term idx L :
  store_of idx !! term = Some (blob_of L) → std.is_vector L →
  IIndex.get_doc_vector term idx = inr (Some L, idx).
Proof.
  intros Hterm HL. unfold IIndex.get_doc_vector, bind.
  rewrite on_kvstore_exists, Hterm.
  rewrite bool_decide_eq_true_2 by eauto.
  rewrite (on_kvstore_get_present _ _ _ Hterm).
  unfold lift. by rewrite read_vector_blob_of.
Qed.

(** The first [add_term] of a term stores the singleton. *)
Lemma add_term_new d term idx :
  store_of idx !! term = None →
  IIndex.add_term d term idx
  = inr (tt, {| IIndex._kvstore :=
                  {| KVStore._store :=
                       <[term := blob_of [d]]> (store_of idx) |} |}).
Proof.
  intros Hterm. unfold IIndex.add_term, bind.
  rewrite on_kvstore_exists, Hterm.
  rewrite bool_decide_eq_false_2 by (intros [? ?]; done).
  reflexivity.
Qed.

(** [add_term] of a doc-id the term already has: the idempotence path. *)
Lemma add_term_member d term idx L :
  store_of idx !! term = Some (blob_of L) → std.is_vector L →
  StronglySorted Z.lt L → d ∈ L →
  IIndex.add_term d term idx = inr (tt, idx).
Proof.
  intros Hterm HL Hsorted Hd. unfold IIndex.add_term, bind.
  rewrite on_kvstore_exists, Hterm.
  rewrite bool_decide_eq_true_2 by eauto. cbn [negb].
  unfold IIndex.add_existing_term, bind.
  rewrite (on_kvstore_get_present _ _ _ Hterm).
  rewrite (get_doc_vector_present _ _ _ Hterm HL).
  cbn [std.value lift].
  rewrite binary_search_spec, bool_decide_eq_true_2 by done.
  reflexivity.
Qed.

(** [add_term] of a doc-id the term does not have: ordered insertion. *)
Lemma add_term_fresh d term idx L :
  store_of idx !! term = Some (blob_of L) → std.is_vector L →
  StronglySorted Z.lt L → d ∉ L → Z.of_nat (length L) < std.max_size →
  IIndex.add_term d term idx
  = inr (tt, {| IIndex._kvstore :=
                  {| KVStore._store :=
                       <[term := blob_of (take (std.lower_bound L d) L
                                            ++ d :: drop (std.lower_bound L d) L)]>
                         (store_of idx) |} |}).
Proof.
  intros Hterm HL Hsorted Hd Hroom. unfold IIndex.add_term, bind.
  rewrite on_kvstore_exists, Hterm.
  rewrite bool_decide_eq_true_2 by eauto. cbn [negb].
  unfold IIndex.add_existing_term, bind.
  rewrite (on_kvstore_get_present _ _ _ Hterm).
  rewrite (get_doc_vector_present _ _ _ Hterm HL).
  cbn [std.value lift].
  rewrite binary_search_spec, bool_decide_eq_false_2 by done.
  cbn [negb]. rewrite vector_insert_ok by done.
  reflexivity.
Qed.
End index_calls.

(** ** The index along a run *)

Section index_runs.
Import iidx.
Implicit Types (idx : IIndex.t) (term : string) (L : list Z) (d : Z).
Implicit Types (ops : list (Z * string)).

Lemma feasible_snoc ops d term :
  feasible (ops ++ [(d, term)]) →
  feasible ops ∧ is_DocId d ∧ Z.of_nat (length ops) < std.max_size.
Proof.
  intros [Hids Hlen]. rewrite length_app in Hlen. simpl in Hlen.
  apply Forall_app in Hids as [Hops Hd]. rewrite Forall_singleton in Hd.
  repeat split; [done|lia|apply Hd|apply Hd|lia].
Qed.

Lemma feasible_elem_of ops d term :
  feasible ops → (d, term) ∈ ops → is_DocId d.
Proof.
  intros [Hids _] Hd. rewrite Forall_forall in Hids. by apply Hids in Hd.
Qed.

(** The vector behind a stored entry. *)
Lemma posting_entry_vector ops term b :
  feasible ops → posting_entry ops term (Some b) →
  ∃ L, b = blob_of L ∧ std.is_vector L ∧ StronglySorted Z.lt L
       ∧ L ≠ [] ∧ (length L ≤ length ops)%nat
       ∧ ∀ d, d ∈ L ↔ (d, term) ∈ ops.
Proof.
  intros Hops (L & -> & Hsorted & Hne & Hlen & Hmem).
  exists L. split_and!; try done. split.
  - apply Forall_forall. intros d Hd.
    apply (feasible_elem_of ops d term Hops). by apply Hmem.
  - destruct Hops as [_ Hops]. lia.
Qed.

Lemma elem_of_snoc_other ops d term d' term' :
  term' ≠ term → (d', term') ∈ ops ++ [(d, term)] ↔ (d', term') ∈ ops.
Proof.
  intros Hne. rewrite elem_of_app, list_elem_of_singleton.
  split; [intros [?|?]; [done|congruence]|tauto].
Qed.

Lemma elem_of_snoc_same ops d term d' :
  (d', term) ∈ ops ++ [(d, term)] ↔ d' = d ∨ (d', term) ∈ ops.
Proof.
  rewrite elem_of_app, list_elem_of_singleton.
  split; [intros [?|?]; [tauto|left; congruence]|].
  intros [->|?]; tauto.
Qed.

(** A call on another term leaves an entry as it should be. *)
Lemma posting_entry_other ops d term term' entry :
  term' ≠ term → posting_entry ops term' entry →
  posting_entry (ops ++ [(d, term)]) term' entry.
Proof.
  intros Hne. destruct entry as [b|]; simpl.
  - intros (L & -> & Hsorted & HL & Hlen & Hmem).
    exists L. split_and!; try done.
    + rewrite length_app. lia.
    + intros d'. by rewrite elem_of_snoc_other.
  - intros Hnone d'. by rewrite elem_of_snoc_other.
Qed.

(** One more call keeps the store in step with the run. *)
Lemma add_term_represents d term idx ops :
  feasible (ops ++ [(d, term)]) → represents idx ops →
  ∃ idx', IIndex.add_term d term idx = inr (tt, idx')
          ∧ represents idx' (ops ++ [(d, term)]).
Proof.
  intros (Hops & Hd & Hroom)%feasible_snoc Hrep.
  pose proof (Hrep term) as Hterm.
  destruct (store_of idx !! term) as [b|] eqn:Hb.
  - destruct (posting_entry_vector _ _ _ Hops Hterm)
      as (L & -> & HL & Hsorted & Hne & Hlen & Hmem).
    destruct (decide (d ∈ L)) as [Hin|Hout].
    + (* the doc-id is there: nothing is written *)
      exists idx. split; [by eapply add_term_member|].
      intros term'. destruct (decide (term' = term)) as [->|Hother];
        [|by apply posting_entry_other].
      rewrite Hb. exists L. split_and!; try done.
      * rewrite length_app. lia.
      * intros d'. rewrite elem_of_snoc_same, Hmem.
        split; [tauto|]. intros [->|?]; [by apply Hmem|done].
    + (* the doc-id is new: the vector grows by it, in order *)
      eexists. split; [eapply add_term_fresh; eauto; lia|].
      intros term'. cbn [IIndex._kvstore KVStore._store].
      destruct (decide (term' = term)) as [->|Hother];
        [|rewrite lookup_insert_ne by done; by apply posting_entry_other].
      rewrite lookup_insert_eq. eexists. split_and!; [done|..].
      * by apply insert_at_lower_bound_sorted.
      * by destruct (take _ L).
      * rewrite length_insert_at, length_app. simpl. lia.
      * intros d'. rewrite elem_of_insert_at, elem_of_snoc_same, Hmem.
        done.
  - (* the term is new: the singleton is written *)
    eexists. split; [by apply add_term_new|].
    intros term'. cbn [IIndex._kvstore KVStore._store].
    destruct (decide (term' = term)) as [->|Hother];
      [|rewrite lookup_insert_ne by done; by apply posting_entry_other].
    rewrite lookup_insert_eq. exists [d]. split_and!; try done.
    + repeat constructor.
    + rewrite length_app. simpl. lia.
    + intros d'. rewrite elem_of_snoc_same, list_elem_of_singleton.
      specialize (Hterm d'). simpl in Hterm. tauto.
Qed.

Lemma add_terms_app ops1 ops2 idx :
  add_terms (ops1 ++ ops2) idx
  = match add_terms ops1 idx with
    | inl e => inl e
    | inr (_, idx') => add_terms ops2 idx'
    end.
Proof.
  revert idx. induction ops1 as [|[d term] ops1 IH]; intros idx; [done|].
  cbn [app add_terms]. unfold bind.
  destruct (IIndex.add_term d term idx) as [e|[[] idx']]; [done|].
  apply IH.
Qed.

Lemma represents_new : represents IIndex.new [].
Proof.
  intros term. cbn [IIndex.new IIndex._kvstore KVStore.new KVStore._store].
  rewrite lookup_empty. intros d Hd. by apply elem_of_nil in Hd.
Qed.

(** Every feasible run goes through, and the store holds its postings. *)
Lemma add_terms_represents ops :
  feasible ops →
  ∃ idx, add_terms ops IIndex.new = inr (tt, idx) ∧ represents idx ops.
Proof.
  induction ops as [|[d term] ops IH] using rev_ind; intros Hops.
  - exists IIndex.new. split; [done|apply represents_new].
  - pose proof (feasible_snoc _ _ _ Hops) as (Hops' & _ & _).
    destruct (IH Hops') as (idx & Hrun & Hrep).
    destruct (add_term_represents d term idx ops Hops Hrep)
      as (idx' & Hadd & Hrep').
    exists idx'. split; [|done].
    rewrite add_terms_app, Hrun. cbn [add_terms]. unfold bind.
    by rewrite Hadd.
Qed.

(** Lookups in a store that holds the postings of a run. *)
Lemma represents_lookup idx ops term :
  feasible ops → represents idx ops →
  (∃ L, IIndex.get_doc_vector term idx = inr (Some L, idx)
        ∧ store_of idx !! term = Some (blob_of L)
        ∧ std.is_vector L ∧ StronglySorted Z.lt L ∧ L ≠ []
        ∧ ∀ d, d ∈ L ↔ (d, term) ∈ ops)
  ∨ (IIndex.get_doc_vector term idx = inr (None, idx)
     ∧ store_of idx !! term = None
     ∧ ∀ d, (d, term) ∉ ops).
Proof.
  intros Hops Hrep. pose proof (Hrep term) as Hterm.
  destruct (store_of idx !! term) as [b|] eqn:Hb.
  - destruct (posting_entry_vector _ _ _ Hops Hterm)
      as (L & -> & HL & Hsorted & Hne & Hlen & Hmem).
    left. exists L. split_and!; try done.
    by apply get_doc_vector_present.
  - right. split_and!; try done. by apply get_doc_vector_absent.
Qed.
End index_runs.

(** ** The claims about the index *)

Section index_claims.
Import iidx.
Implicit Types (idx : IIndex.t) (term : string) (L : list Z) (d : Z).
Implicit Types (ops : list (Z * string)).

Lemma StronglySorted_lt_NoDup L : StronglySorted Z.lt L → NoDup L.
Proof.
  induction 1 as [|x L _ IH Hx]; constructor; [|done].
  intros Hin. rewrite Forall_forall in Hx. apply Hx in Hin. lia.
Qed.

(** C1 — deduplication. After every feasible run of [add_term] calls on an
    empty index, [get_doc_vector term] returns, for a term that was added,
    a vector holding exactly the doc-ids added under it, each once; and
    absence for a term never added. *)
Theorem lookup_returns_added_set ops :
  feasible ops →
  ∃ idx,
    add_terms ops IIndex.new = inr (tt, idx)
    ∧ ∀ term,
        ((∃ d, (d, term) ∈ ops) →
         ∃ L, IIndex.get_doc_vector term idx = inr (Some L, idx)
              ∧ NoDup L ∧ ∀ d, d ∈ L ↔ (d, term) ∈ ops)
        ∧ ((∀ d, (d, term) ∉ ops) →
           IIndex.get_doc_vector term idx = inr (None, idx)).
Proof.
  intros Hops. destruct (add_terms_represents ops Hops) as (idx & Hrun & Hrep).
  exists idx. split; [done|]. intros term.
  destruct (represents_lookup idx ops term Hops Hrep)
    as [(L & Hget & _ & _ & Hsorted & Hne & Hmem)|(Hget & _ & Hnone)].
  - split.
    + intros _. exists L. split_and!; try done.
      by apply StronglySorted_lt_NoDup.
    + intros Hnever. destruct L as [|d L]; [done|].
      destruct (Hnever d). apply Hmem. by left.
  - split; [|done]. intros [d Hd]. by destruct (Hnone d).
Qed.

Lemma lookup_returns_added_set_witness :
  feasible main_adds ∧
  ∃ idx,
    add_terms main_adds IIndex.new = inr (tt, idx)
    ∧ ∀ term,
        ((∃ d, (d, term) ∈ main_adds) →
         ∃ L, IIndex.get_doc_vector term idx = inr (Some L, idx)
              ∧ NoDup L ∧ ∀ d, d ∈ L ↔ (d, term) ∈ main_adds)
        ∧ ((∀ d, (d, term) ∉ main_adds) →
           IIndex.get_doc_vector term idx = inr (None, idx)).
Proof.
  split; [solve_feasible|].
  apply (lookup_returns_added_set main_adds). solve_feasible.
Defined.

(** C2 — sortedness. After every feasible run on an empty index and for
    every term, [get_doc_vector] returns normally, and a vector it returns
    is strictly ascending, hence free of duplicates. *)
Theorem lookup_strictly_ascending ops term :
  feasible ops →
  ∃ idx o,
    add_terms ops IIndex.new = inr (tt, idx)
    ∧ IIndex.get_doc_vector term idx = inr (o, idx)
    ∧ ∀ L, o = Some L → StronglySorted Z.lt L ∧ NoDup L.
Proof.
  intros Hops. destruct (add_terms_represents ops Hops) as (idx & Hrun & Hrep).
  exists idx.
  destruct (represents_lookup idx ops term Hops Hrep)
    as [(L & Hget & _ & _ & Hsorted & _)|(Hget & _)].
  - exists (Some L). split_and!; try done. intros ? [= <-].
    split; [done|]. by apply StronglySorted_lt_NoDup.
  - exists None. split_and!; done.
Qed.

Lemma lookup_strictly_ascending_witness :
  feasible [(9, "a"); (3, "a"); (7, "a")]%string ∧
  ∃ idx o,
    add_terms [(9, "a"); (3, "a"); (7, "a")]%string IIndex.new
    = inr (tt, idx)
    ∧ IIndex.get_doc_vector "a" idx = inr (o, idx)
    ∧ ∀ L, o = Some L → StronglySorted Z.lt L ∧ NoDup L.
Proof.
  split; [solve_feasible|].
  apply (lookup_strictly_ascending [(9, "a"); (3, "a"); (7, "a")]%string "a").
  solve_feasible.
Defined.

(** C4 — idempotence. In every index reached by a run, with room for one
    more call, [add_term d term] twice in a row leaves the index exactly as
    [add_term d term] once does. *)
Theorem add_term_idempotent ops d term :
  feasible (ops ++ [(d, term)]) →
  ∃ idx idx1,
    add_terms ops IIndex.new = inr (tt, idx)
    ∧ IIndex.add_term d term idx = inr (tt, idx1)
    ∧ (_ <- IIndex.add_term d term ;; IIndex.add_term d term) idx
      = inr (tt, idx1).
Proof.
  intros Hops. pose proof (feasible_snoc _ _ _ Hops) as (Hops' & _ & _).
  destruct (add_terms_represents ops Hops') as (idx & Hrun & Hrep).
  destruct (add_term_represents d term idx ops Hops Hrep)
    as (idx1 & Hadd & Hrep1).
  exists idx, idx1. split_and!; try done.
  unfold bind. rewrite Hadd.
  destruct (represents_lookup idx1 _ term Hops Hrep1)
    as [(L & _ & Hstored & HL & Hsorted & _ & Hmem)|(_ & _ & Hnone)].
  - eapply add_term_member; eauto. apply Hmem, elem_of_snoc_same. by left.
  - destruct (Hnone d). apply elem_of_snoc_same. by left.
Qed.

Lemma add_term_idempotent_witness :
  feasible ([(3, "x")]%string ++ [(5, "x"%string)]) ∧
  ∃ idx idx1,
    add_terms [(3, "x")]%string IIndex.new = inr (tt, idx)
    ∧ IIndex.add_term 5 "x" idx = inr (tt, idx1)
    ∧ (_ <- IIndex.add_term 5 "x" ;; IIndex.add_term 5 "x") idx
      = inr (tt, idx1).
Proof.
  split; [solve_feasible|].
  apply (add_term_idempotent [(3, "x")]%string 5 "x"). solve_feasible.
Defined.

(** C6 — presence. After every feasible run on an empty index and for
    every term, the store has the term exactly when some [add_term] of the
    run named it; a term never added is looked up as absent, and no lookup
    returns an empty vector. *)
Theorem store_has_exactly_added_terms ops :
  feasible ops →
  ∃ idx,
    add_terms ops IIndex.new = inr (tt, idx)
    ∧ ∀ term,
        (KVStore.exists_ term (IIndex._kvstore idx)
         = inr (true, IIndex._kvstore idx)
         ↔ ∃ d, (d, term) ∈ ops)
        ∧ ((∀ d, (d, term) ∉ ops) →
           IIndex.get_doc_vector term idx = inr (None, idx))
        ∧ IIndex.get_doc_vector term idx ≠ inr (Some [], idx).
Proof.
  intros Hops. destruct (add_terms_represents ops Hops) as (idx & Hrun & Hrep).
  exists idx. split; [done|]. intros term. rewrite exists_lookup.
  destruct (represents_lookup idx ops term Hops Hrep)
    as [(L & Hget & Hstored & _ & _ & Hne & Hmem)|(Hget & Hstored & Hnone)];
    rewrite Hget, Hstored.
  - destruct L as [|d L]; [done|].
    assert ((d, term) ∈ ops) as Hd by (apply Hmem; by left).
    split_and!; [|intros Hnever; by destruct (Hnever d)|done].
    split; [by exists d|done].
  - split_and!; [|done..].
    split; [done|]. intros [d Hd]. by destruct (Hnone d).
Qed.

Lemma store_has_exactly_added_terms_witness :
  feasible [(0, "dog"); (0, "cat")]%string ∧
  ∃ idx,
    add_terms [(0, "dog"); (0, "cat")]%string IIndex.new = inr (tt, idx)
    ∧ ∀ term,
        (KVStore.exists_ term (IIndex._kvstore idx)
         = inr (true, IIndex._kvstore idx)
         ↔ ∃ d, (d, term) ∈ [(0, "dog"); (0, "cat")]%string)
        ∧ ((∀ d, (d, term) ∉ [(0, "dog"); (0, "cat")]%string) →
           IIndex.get_doc_vector term idx = inr (None, idx))
        ∧ IIndex.get_doc_vector term idx ≠ inr (Some [], idx).
Proof.
  split; [solve_feasible|].
  apply (store_has_exactly_added_terms [(0, "dog"); (0, "cat")]%string).
  solve_feasible.
Defined.

(** C7 — monotonic growth. In every index reached by a run, with room for
    one more call, an [add_term] on any term leaves every term that had a
    posting list with a posting list holding all the doc-ids it held
    before. *)
Theorem add_term_grows_postings ops d term term' :
  feasible (ops ++ [(d, term)]) →
  ∃ idx idx',
    add_terms ops IIndex.new = inr (tt, idx)
    ∧ IIndex.add_term d term idx = inr (tt, idx')
    ∧ ∀ L, IIndex.get_doc_vector term' idx = inr (Some L, idx) →
           ∃ L', IIndex.get_doc_vector term' idx' = inr (Some L', idx')
                 ∧ L ⊆ L'.
Proof.
  intros Hops. pose proof (feasible_snoc _ _ _ Hops) as (Hops' & _ & _).
  destruct (add_terms_represents ops Hops') as (idx & Hrun & Hrep).
  destruct (add_term_represents d term idx ops Hops Hrep)
    as (idx' & Hadd & Hrep').
  exists idx, idx'. split_and!; try done. intros L HL.
  destruct (represents_lookup idx ops term' Hops' Hrep)
    as [(L0 & Hget & _ & _ & _ & Hne & Hmem)|(Hget & _)];
    rewrite Hget in HL; [|done].
  injection HL as ->.
  assert (∀ x, x ∈ L → (x, term') ∈ ops ++ [(d, term)]) as Hkept.
  { intros x Hx. apply elem_of_app. left. by apply Hmem. }
  destruct (represents_lookup idx' _ term' Hops Hrep')
    as [(L' & Hget' & _ & _ & _ & _ & Hmem')|(_ & _ & Hnone)].
  - exists L'. split; [done|]. intros x Hx. by apply Hmem', Hkept.
  - destruct L as [|x L]; [done|].
    destruct (Hnone x). apply Hkept. by left.
Qed.

Lemma add_term_grows_postings_witness :
  feasible ([(9, "a"); (3, "a")]%string ++ [(7, "a"%string)]) ∧
  ∃ idx idx',
    add_terms [(9, "a"); (3, "a")]%string IIndex.new = inr (tt, idx)
    ∧ IIndex.add_term 7 "a" idx = inr (tt, idx')
    ∧ ∀ L, IIndex.get_doc_vector "a" idx = inr (Some L, idx) →
           ∃ L', IIndex.get_doc_vector "a" idx' = inr (Some L', idx')
                 ∧ L ⊆ L'.
Proof.
  split; [solve_feasible|].
  apply (add_term_grows_postings [(9, "a"); (3, "a")]%string 7 "a" "a").
  solve_feasible.
Defined.

(** C9 — the run of [main]. After its nine [add_term] calls on an empty
    index the lookups return: cat [0, 1, 2], mouse [1], dog [0, 2],
    house [1], tree [1, 2], and fish is absent. *)
Theorem main_lookups :
  ∃ idx,
    add_terms main_adds IIndex.new = inr (tt, idx)
    ∧ IIndex.get_doc_vector "cat" idx = inr (Some [0; 1; 2], idx)
    ∧ IIndex.get_doc_vector "mouse" idx = inr (Some [1], idx)
    ∧ IIndex.get_doc_vector "dog" idx = inr (Some [0; 2], idx)
    ∧ IIndex.get_doc_vector "house" idx = inr (Some [1], idx)
    ∧ IIndex.get_doc_vector "tree" idx = inr (Some [1; 2], idx)
    ∧ IIndex.get_doc_vector "fish" idx = inr (None, idx).
Proof.
  eexists. split; [by vm_compute|].
  split_and!; by vm_compute.
Qed.

(** C10 — [get] is not read-only. For every key the store does not have,
    [get] returns the empty blob and enters the key with the empty blob,
    so that [exists] holds afterwards; [get_doc_vector] on such a term
    returns absence and leaves the index as it was, since it asks
    [exists] first. *)
Theorem get_enters_missing_key (k : string) (s : KVStore.t) :
  KVStore.exists_ k s = inr (false, s) →
  ∃ s',
    KVStore.get k s = inr ([], s')
    ∧ KVStore._store s' = <[k := []]> (KVStore._store s)
    ∧ KVStore.exists_ k s' = inr (true, s')
    ∧ s' ≠ s
    ∧ IIndex.get_doc_vector k {| IIndex._kvstore := s |}
      = inr (None, {| IIndex._kvstore := s |}).
Proof.
  rewrite exists_lookup. intros [= Hk].
  apply bool_decide_eq_false_1 in Hk.
  assert (KVStore._store s !! k = None) as Hnone.
  { destruct (KVStore._store s !! k) eqn:E; [|done].
    destruct Hk. eauto. }
  eexists. split; [by apply get_missing|]. split_and!.
  - done.
  - rewrite exists_lookup. cbn [KVStore._store].
    by rewrite lookup_insert_eq.
  - intros Heq. rewrite <- Heq in Hnone. cbn [KVStore._store] in Hnone.
    by rewrite lookup_insert_eq in Hnone.
  - by apply get_doc_vector_absent.
Qed.

Lemma get_enters_missing_key_witness :
  KVStore.exists_ "fish" KVStore.new = inr (false, KVStore.new) ∧
  ∃ s',
    KVStore.get "fish" KVStore.new = inr ([], s')
    ∧ KVStore._store s' = <["fish"%string := []]> (KVStore._store KVStore.new)
    ∧ KVStore.exists_ "fish" s' = inr (true, s')
    ∧ s' ≠ KVStore.new
    ∧ IIndex.get_doc_vector "fish" {| IIndex._kvstore := KVStore.new |}
      = inr (None, {| IIndex._kvstore := KVStore.new |}).
Proof.
  split; [reflexivity|].
  apply (get_enters_missing_key "fish" KVStore.new). reflexivity.
Defined.
End index_claims.

(** ** Scenarios of the specification, run on the model *)

Section scenarios.
Import iidx.

Example blob_of_two :
  blob_of [1; 258]
  = [Byte.x02; Byte.x00; Byte.x00; Byte.x00; Byte.x00; Byte.x00; Byte.x00;
     Byte.x00;
     Byte.x01; Byte.x00; Byte.x00; Byte.x00; Byte.x00; Byte.x00; Byte.x00;
     Byte.x00;
     Byte.x02; Byte.x01; Byte.x00; Byte.x00; Byte.x00; Byte.x00; Byte.x00;
     Byte.x00].
Proof. reflexivity. Qed.

Example add_same_twice :
  lookup_after [(5, "x"); (5, "x")]%string "x" = inr (Some [5]).
Proof. by vm_compute. Qed.

Example add_out_of_order :
  lookup_after [(9, "a"); (3, "a"); (7, "a")]%string "a"
  = inr (Some [3; 7; 9]).
Proof. by vm_compute. Qed.

Example add_extreme_doc_ids :
  lookup_after [(2 ^ 64 - 1, "t"); (5, "t"); (0, "t")]%string "t"
  = inr (Some [0; 5; 2 ^ 64 - 1]).
Proof. by vm_compute. Qed.

Example short_header_read :
  serialize.read_vector (std.stringstream_of [Byte.x02]) []
  = inr ({| std.str := [Byte.x02]; std.gpos := 1; std.ppos := 0;
            std.good := false |}, [0; 0]).
Proof. reflexivity. Qed.

Example short_payload_read :
  serialize.read_vector (std.stringstream_of (le_split 8 2 ++ le_split 8 7)) []
  = inr ({| std.str := le_split 8 2 ++ le_split 8 7; std.gpos := 16;
            std.ppos := 0; std.good := false |}, [7; 0]).
Proof. reflexivity. Qed.
End scenarios.

(** ** The driver *)

Section driver.
Import iidx.

Example main_returns :
  main = inr (0, "cat: 0 1 2 " +:+ newline
                 +:+ "mouse: 1 " +:+ newline
                 +:+ "dog: 0 2 " +:+ newline
                 +:+ "house: 1 " +:+ newline
                 +:+ "tree: 1 2 " +:+ newline).
Proof. by vm_compute. Qed.

Example print_missing_term :
  print_doc_vector "fish" (IIndex.new, EmptyString)
  = inr ([], (IIndex.new, "fish: not found" +:+ newline)).
Proof. by vm_compute. Qed.
End driver.

(** ** More on the codec: streams at any position *)

Section codec_positions.
Import std serialize.

Lemma length_resized n (data : list Z) :
  length (take n data ++ replicate (n - length data) 0) = n.
Proof. rewrite length_app, length_take, length_replicate. lia. Qed.

Lemma resize_within len data :
  0 ≤ len ≤ max_size →
  resize len data
  = inr (take (Z.to_nat len) data
           ++ replicate (Z.to_nat len - length data) 0).
Proof.
  intros Hlen. unfold resize.
  by destruct (Z.ltb_spec max_size len) as [?|_]; [lia|].
Qed.

(** [read_vector] on a good stream at any get position and into any vector,
    in closed form. *)
Lemma read_vector_good s g p data :
  (g ≤ length s)%nat →
  read_vector {| str := s; gpos := g; ppos := p; good := true |} data =
    let len := le_combine (take 8 (drop g s)) in
    let n := Z.to_nat len in
    if decide (max_size < len) then inl length_error
    else
      let resized := take n data ++ replicate (n - length data) 0 in
      inr ({| str := s;
              gpos := length s `min` (g + 8 + 8 * n);
              ppos := p;
              good := bool_decide (g + 8 + 8 * n ≤ length s)%nat |},
           of_object_bytes n
             (drop (g + 8) s
                ++ drop (length s - (g + 8)) (object_bytes resized))).
Proof.
  intros Hg. cbv zeta. unfold read_vector, sizeof_T.
  pose proof (le_combine_bound (take 8 (drop g s))) as Hb.
  destruct (decide (length s < g + 8)%nat) as [Hshort|Hhdr].
  - rewrite read_short by lia. cbv beta iota.
    replace (length s - g)%nat with (length (drop g s))
      by (rewrite length_drop; lia).
    rewrite le_combine_short_read by (rewrite length_drop; lia).
    rewrite (take_ge (drop g s)) in * by (rewrite length_drop; lia).
    assert (le_combine (drop g s) < 2 ^ 56) as Hlt.
    { eapply Z.lt_le_trans; [apply Hb|].
      apply Z.pow_le_mono_r; [lia|]. rewrite length_drop. lia. }
    rewrite decide_False by (rewrite max_size_eq; lia).
    rewrite resize_within by (rewrite max_size_eq; lia).
    rewrite read_failed, length_resized.
    rewrite (drop_ge s (g + 8)), app_nil_l by lia.
    replace (length s - (g + 8))%nat with 0%nat by lia.
    rewrite drop_0, bool_decide_eq_false_2 by lia.
    do 3 f_equal. lia.
  - rewrite read_full by (rewrite ?length_le_split; lia).
    cbv beta iota.
    destruct (decide (max_size < le_combine (take 8 (drop g s))))
      as [Hbig|Hfit].
    { by rewrite resize_length_error. }
    rewrite resize_within by lia.
    rewrite max_size_eq in Hfit.
    rewrite is_DocId_wrap64 by (unfold is_DocId; lia).
    replace (Z.to_nat (8 * le_combine (take 8 (drop g s))))
      with (8 * Z.to_nat (le_combine (take 8 (drop g s))))%nat by lia.
    set (n := Z.to_nat (le_combine (take 8 (drop g s)))).
    rewrite length_resized.
    assert (length (object_bytes
                      (take n data ++ replicate (n - length data) 0))
            = (8 * n)%nat) as Himg
      by (by rewrite length_object_bytes, length_resized).
    destruct (decide (g + 8 + 8 * n ≤ length s)%nat) as [Hall|Hpart].
    + rewrite read_full by lia.
      rewrite bool_decide_eq_true_2 by done.
      rewrite (drop_ge (object_bytes _)), app_nil_r by lia.
      rewrite of_object_bytes_take by lia.
      do 3 f_equal. lia.
    + rewrite read_short by lia.
      by rewrite bool_decide_eq_false_2, Nat.min_l by lia.
Qed.

(** [write_vector] on a good stream at any put position within the
    sequence. *)
Lemma write_vector_good s g p v :
  (p ≤ length s)%nat → is_vector v →
  write_vector {| str := s; gpos := g; ppos := p; good := true |} v
  = {| str := take p s ++ blob_of v ++ drop (p + length (blob_of v)) s;
       gpos := g;
       ppos := p + length (blob_of v);
       good := true |}.
Proof.
  intros Hp Hv. pose proof Hv as [_ Hlen]. rewrite max_size_eq in Hlen.
  rewrite blob_of_vector by done.
  unfold write_vector, sizeof_T.
  rewrite (is_DocId_wrap64 (Z.of_nat (length v))) by (unfold is_DocId; lia).
  rewrite is_DocId_wrap64 by (unfold is_DocId; lia).
  rewrite take_ge by (rewrite length_object_bytes; lia).
  unfold write. cbn [good str gpos ppos].
  rewrite !length_app, !length_le_split.
  set (hdr := le_split 8 (Z.of_nat (length v))).
  set (body := object_bytes v).
  assert (length hdr = 8%nat) as Hhdr by apply length_le_split.
  f_equal; [|lia].
  rewrite (app_assoc (take p s) hdr).
  rewrite take_app_length' by (rewrite length_app, length_take; lia).
  rewrite <- !app_assoc. do 3 f_equal.
  rewrite app_assoc, drop_app_ge
    by (rewrite length_app, length_take; lia).
  rewrite length_app, length_take, drop_drop. f_equal. lia.
Qed.

(** Decoding a blob that is followed by other bytes. *)
Lemma read_vector_blob_prefix v rest data :
  is_vector v →
  read_vector (stringstream_of (blob_of v ++ rest)) data
  = inr ({| str := blob_of v ++ rest; gpos := length (blob_of v);
            ppos := 0; good := true |}, v).
Proof.
  intros Hv. pose proof Hv as [Hids Hlen]. rewrite max_size_eq in Hlen.
  unfold stringstream_of. rewrite read_vector_good by lia. cbv zeta.
  rewrite drop_0, blob_of_vector by done.
  rewrite <- app_assoc, take_app_length' by by rewrite length_le_split.
  rewrite le_combine_split_DocId by (unfold is_DocId; lia).
  rewrite decide_False, Nat2Z.id by (rewrite max_size_eq; lia).
  rewrite !length_app, length_le_split, length_object_bytes.
  rewrite bool_decide_eq_true_2, Nat.min_r by lia.
  rewrite drop_app_length' by by rewrite length_le_split.
  rewrite <- app_assoc, of_object_bytes_object_bytes by done.
  do 3 f_equal.
Qed.
End codec_positions.

Section codec_extras.
Import std serialize.

Lemma of_object_bytes_length n img : length (of_object_bytes n img) = n.
Proof. revert img. induction n as [|n IH]; intros img; simpl; auto. Qed.

(** Decoding a blob that sits at the get position, whatever surrounds it
    and whatever the vector held. *)
Lemma read_vector_blob_at pre v rest p data :
  is_vector v →
  read_vector {| str := pre ++ blob_of v ++ rest; gpos := length pre;
                 ppos := p; good := true |} data
  = inr ({| str := pre ++ blob_of v ++ rest;
            gpos := length pre + length (blob_of v);
            ppos := p; good := true |}, v).
Proof.
  intros Hv. pose proof Hv as [Hids Hlen]. rewrite max_size_eq in Hlen.
  rewrite read_vector_good by (rewrite length_app; lia). cbv zeta.
  rewrite drop_app_length, blob_of_vector by done.
  rewrite <- app_assoc, take_app_length' by by rewrite length_le_split.
  rewrite le_combine_split_DocId by (unfold is_DocId; lia).
  rewrite decide_False, Nat2Z.id by (rewrite max_size_eq; lia).
  rewrite !length_app, length_le_split, length_object_bytes.
  rewrite bool_decide_eq_true_2, Nat.min_r by lia.
  replace (drop (length pre + 8)
             (pre ++ le_split 8 (Z.of_nat (length v))
                  ++ object_bytes v ++ rest))
    with (object_bytes v ++ rest).
  2:{ rewrite <- drop_drop, drop_app_length.
      by rewrite drop_app_length' by by rewrite length_le_split. }
  rewrite <- app_assoc, of_object_bytes_object_bytes by done.
  do 3 f_equal. lia.
Qed.

(** X1 — [write_vector] writes in place. On a good stream whose put
    position [p] lies within the sequence, [write_vector] keeps the [p]
    bytes before it, puts the [8 + 8 * size] bytes of the blob there,
    keeps whatever lay beyond them, and moves only the put position; at
    the end of the sequence it appends. *)
Theorem write_vector_in_place s g p v :
  (p ≤ length s)%nat → is_vector v →
  let os := write_vector {| str := s; gpos := g; ppos := p; good := true |} v in
  str os = take p s ++ blob_of v ++ drop (p + 8 + 8 * length v) s
  ∧ length (blob_of v) = (8 + 8 * length v)%nat
  ∧ ppos os = (p + 8 + 8 * length v)%nat
  ∧ gpos os = g ∧ good os = true
  ∧ (p = length s → str os = s ++ blob_of v).
Proof.
  intros Hp Hv os. subst os. rewrite write_vector_good by done.
  assert (length (blob_of v) = (8 + 8 * length v)%nat) as Hsize.
  { rewrite blob_of_vector by done.
    by rewrite length_app, length_le_split, length_object_bytes. }
  cbn [str gpos ppos good]. rewrite Hsize. split_and!; try done.
  - do 3 f_equal. lia.
  - lia.
  - intros ->. by rewrite take_ge, drop_ge, app_nil_r by lia.
Qed.

Lemma write_vector_in_place_witness :
  (2 ≤ length [Byte.x01; Byte.x02; Byte.x03])%nat ∧ is_vector [7] ∧
  let os := write_vector {| str := [Byte.x01; Byte.x02; Byte.x03];
                            gpos := 0; ppos := 2; good := true |} [7] in
  str os = take 2 [Byte.x01; Byte.x02; Byte.x03] ++ blob_of [7]
             ++ drop (2 + 8 + 8 * length [7]) [Byte.x01; Byte.x02; Byte.x03]
  ∧ length (blob_of [7]) = (8 + 8 * length [7])%nat
  ∧ ppos os = (2 + 8 + 8 * length [7])%nat
  ∧ gpos os = 0%nat ∧ good os = true
  ∧ (2%nat = length [Byte.x01; Byte.x02; Byte.x03] →
     str os = [Byte.x01; Byte.x02; Byte.x03] ++ blob_of [7]).
Proof.
  split; [simpl; lia|]. split; [solve_is_vector|].
  apply (write_vector_in_place [Byte.x01; Byte.x02; Byte.x03] 0 2 [7]);
    [simpl; lia|solve_is_vector].
Defined.

(** X2 — blobs in sequence. Two vectors written one after the other to a
    fresh stream are read back one after the other from a stream over its
    bytes, the second read reusing the vector the first one filled; the
    two reads consume all the bytes and leave the stream good. *)
Theorem write_two_read_two v1 v2 :
  is_vector v1 → is_vector v2 →
  let os := write_vector (write_vector stringstream_new v1) v2 in
  str os = blob_of v1 ++ blob_of v2
  ∧ ∃ is1 is2,
      read_vector (stringstream_of (str os)) [] = inr (is1, v1)
      ∧ read_vector is1 v1 = inr (is2, v2)
      ∧ gpos is2 = length (str os)
      ∧ good is2 = true.
Proof.
  intros Hv1 Hv2 os.
  assert (write_vector stringstream_new v1
          = {| str := blob_of v1; gpos := 0; ppos := length (blob_of v1);
               good := true |}) as Hos1.
  { rewrite write_vector_new, blob_of_vector by done.
    by rewrite length_app, length_le_split, length_object_bytes. }
  assert (str os = blob_of v1 ++ blob_of v2) as Hstr.
  { subst os. rewrite Hos1, write_vector_good by done. cbn [str].
    by rewrite take_ge, drop_ge, app_nil_r by lia. }
  split; [done|]. rewrite Hstr.
  exists {| str := blob_of v1 ++ blob_of v2; gpos := length (blob_of v1);
            ppos := 0; good := true |},
         {| str := blob_of v1 ++ blob_of v2;
            gpos := length (blob_of v1) + length (blob_of v2);
            ppos := 0; good := true |}.
  split_and!.
  - by apply read_vector_blob_prefix.
  - pose proof (read_vector_blob_at (blob_of v1) v2 [] 0 v1 Hv2) as Hread.
    by rewrite app_nil_r in Hread.
  - cbn [gpos]. by rewrite length_app.
  - done.
Qed.

Lemma write_two_read_two_witness :
  is_vector [0; 2] ∧ is_vector [1] ∧
  let os := write_vector (write_vector stringstream_new [0; 2]) [1] in
  str os = blob_of [0; 2] ++ blob_of [1]
  ∧ ∃ is1 is2,
      read_vector (stringstream_of (str os)) [] = inr (is1, [0; 2])
      ∧ read_vector is1 [0; 2] = inr (is2, [1])
      ∧ gpos is2 = length (str os)
      ∧ good is2 = true.
Proof.
  split; [solve_is_vector|]. split; [solve_is_vector|].
  apply (write_two_read_two [0; 2] [1]); solve_is_vector.
Defined.

(** X3 — reading from a failed stream. On a stream that is not good,
    [read_vector] extracts nothing, leaves the stream as it is and empties
    the vector it was given. *)
Theorem read_vector_on_failed_stream ist data :
  good ist = false → read_vector ist data = inr (ist, []).
Proof.
  destruct ist as [s g p ok]. cbn [good]. intros ->.
  unfold read_vector. rewrite read_failed.
  change (le_combine (le_split 8 0)) with 0.
  rewrite resize_within by (rewrite max_size_eq; lia).
  change (Z.to_nat 0) with 0%nat. rewrite take_0. cbn [replicate app].
  by rewrite read_failed.
Qed.

Lemma read_vector_on_failed_stream_witness :
  good {| str := blob_of [4]; gpos := 0; ppos := 0; good := false |} = false
  ∧ read_vector {| str := blob_of [4]; gpos := 0; ppos := 0; good := false |}
      [1; 2; 3]
    = inr ({| str := blob_of [4]; gpos := 0; ppos := 0; good := false |}, []).
Proof.
  split; [reflexivity|].
  by apply (read_vector_on_failed_stream
              {| str := blob_of [4]; gpos := 0; ppos := 0; good := false |}
              [1; 2; 3]).
Defined.

(** X4 — whatever the bytes, the result is a vector. On a good stream at
    any get position, [read_vector] into a fresh vector raises
    [std::length_error] exactly when the count in the header exceeds
    [max_size()], raises [std::bad_alloc] exactly when the count is within
    [max_size()], not zero, and storage for it cannot be had, and otherwise
    returns a vector of that count whose elements are all 64-bit values,
    never moves the get position backwards or past the end, and touches
    neither the bytes nor the put position. *)
Theorem read_vector_yields_vector can_allocate s g p :
  (g ≤ length s)%nat →
  let len := le_combine (take 8 (drop g s)) in
  match read_vector_alloc can_allocate
          {| str := s; gpos := g; ppos := p; good := true |} []
  with
  | inl (raised e) => e = length_error ∧ max_size < len
  | inl bad_alloc => 0 < len ≤ max_size ∧ can_allocate len = false
  | inr (ist, v) =>
    len ≤ max_size ∧ (len = 0 ∨ can_allocate len = true)
    ∧ is_vector v ∧ Z.of_nat (length v) = len
    ∧ str ist = s ∧ ppos ist = p ∧ (g ≤ gpos ist ≤ length s)%nat
  end.
Proof.
  intros Hg len. rewrite read_vector_alloc_fresh by done. cbv zeta. fold len.
  rewrite read_vector_good by done. cbv zeta. fold len.
  pose proof (le_combine_bound (take 8 (drop g s))) as Hb. fold len in Hb.
  destruct (decide (max_size < len)) as [Hbig|Hfit]; [done|].
  destruct (decide (0 < len ∧ _)) as [[Hpos Hca]|Hok]; [split; [lia|done]|].
  cbn [str gpos ppos]. rewrite of_object_bytes_length.
  split_and!; try done; try lia.
  - destruct (can_allocate len) eqn:Hca; [by right|].
    left. destruct (decide (0 < len)); [|lia]. by destruct Hok.
  - split; [|rewrite of_object_bytes_length; lia].
    apply of_object_bytes_is_DocId.
    rewrite length_app, !length_drop, length_object_bytes, length_resized.
    lia.
Qed.

Lemma read_vector_yields_vector_witness :
  (0 ≤ length (le_split 8 3 ++ le_split 8 9))%nat ∧
  let len := le_combine (take 8 (drop 0 (le_split 8 3 ++ le_split 8 9))) in
  match read_vector_alloc (λ n, n <? 3)
          {| str := le_split 8 3 ++ le_split 8 9; gpos := 0;
             ppos := 0; good := true |} []
  with
  | inl (raised e) => e = length_error ∧ max_size < len
  | inl bad_alloc => 0 < len ≤ max_size ∧ (λ n, n <? 3) len = false
  | inr (ist, v) =>
    len ≤ max_size ∧ (len = 0 ∨ (λ n, n <? 3) len = true)
    ∧ is_vector v ∧ Z.of_nat (length v) = len
    ∧ str ist = le_split 8 3 ++ le_split 8 9 ∧ ppos ist = 0%nat
    ∧ (0 ≤ gpos ist ≤ length (le_split 8 3 ++ le_split 8 9))%nat
  end.
Proof.
  split; [lia|].
  apply (read_vector_yields_vector (λ n, n <? 3)
           (le_split 8 3 ++ le_split 8 9) 0 0).
  lia.
Defined.
End codec_extras.

Section codec_extras_inverse.
Import std serialize.

(** X5 — decoding then encoding. When [read_vector], on a fresh stream over
    [buf] and an empty vector, returns with the stream still good, writing
    the vector it delivered gives back exactly the bytes it consumed. *)
Theorem read_then_write_gives_bytes buf ist v :
  read_vector (stringstream_of buf) [] = inr (ist, v) →
  good ist = true →
  str (write_vector stringstream_new v) = take (gpos ist) buf.
Proof.
  rewrite read_vector_stringstream_of. cbv zeta.
  pose proof (le_combine_bound (take 8 buf)) as Hb.
  set (len := le_combine (take 8 buf)) in *.
  destruct (decide (max_size < len)) as [|Hfit]; [done|].
  intros Hread Hgood.
  apply (inj inr), pair_equal_spec in Hread as [<- <-].
  cbn [good gpos] in *. apply bool_decide_eq_true_1 in Hgood as Hall.
  rewrite Nat.min_r by lia.
  replace (8 * Z.to_nat len - (length buf - 8))%nat with 0%nat by lia.
  cbn [replicate]. rewrite app_nil_r.
  fold (blob_of (of_object_bytes (Z.to_nat len) (drop 8 buf))).
  rewrite blob_of_vector.
  2:{ split; [|rewrite of_object_bytes_length; lia].
      apply of_object_bytes_is_DocId. rewrite length_drop. lia. }
  rewrite of_object_bytes_length, Z2Nat.id by lia.
  rewrite object_bytes_of_object_bytes by (rewrite length_drop; lia).
  unfold len. rewrite le_split_le_combine_8 by (rewrite length_take; lia).
  by rewrite take_take_drop.
Qed.

Lemma read_then_write_gives_bytes_witness :
  read_vector (stringstream_of (le_split 8 1 ++ le_split 8 9 ++ [Byte.xff])) []
  = inr ({| str := le_split 8 1 ++ le_split 8 9 ++ [Byte.xff]; gpos := 16;
            ppos := 0; good := true |}, [9])
  ∧ good {| str := le_split 8 1 ++ le_split 8 9 ++ [Byte.xff]; gpos := 16;
            ppos := 0; good := true |} = true
  ∧ str (write_vector stringstream_new [9])
    = take (gpos {| str := le_split 8 1 ++ le_split 8 9 ++ [Byte.xff];
                    gpos := 16; ppos := 0; good := true |})
        (le_split 8 1 ++ le_split 8 9 ++ [Byte.xff]).
Proof.
  split; [reflexivity|]. split; [reflexivity|].
  apply (read_then_write_gives_bytes
           (le_split 8 1 ++ le_split 8 9 ++ [Byte.xff])
           {| str := le_split 8 1 ++ le_split 8 9 ++ [Byte.xff]; gpos := 16;
              ppos := 0; good := true |} [9]); reflexivity.
Defined.

(** X6 — the format delimits itself. If the bytes [write_vector] produces
    for one vector, followed by anything, equal those it produces for
    another vector, followed by anything, the two vectors are equal and so
    is what follows; in particular distinct vectors have distinct blobs. *)
Theorem blob_self_delimiting v1 v2 rest1 rest2 :
  is_vector v1 → is_vector v2 →
  str (write_vector stringstream_new v1) ++ rest1
  = str (write_vector stringstream_new v2) ++ rest2 →
  v1 = v2 ∧ rest1 = rest2.
Proof.
  intros Hv1 Hv2. fold (blob_of v1) (blob_of v2). intros Heq.
  pose proof (read_vector_blob_prefix v1 rest1 [] Hv1) as H1.
  pose proof (read_vector_blob_prefix v2 rest2 [] Hv2) as H2.
  rewrite Heq, H2 in H1. injection H1 as _ ->.
  split; [done|]. by apply app_inv_head in Heq.
Qed.

Lemma blob_self_delimiting_witness :
  is_vector [3; 4] ∧ is_vector [3; 4] ∧
  str (write_vector stringstream_new [3; 4]) ++ [Byte.x01]
  = str (write_vector stringstream_new [3; 4]) ++ [Byte.x01] ∧
  [3; 4] = [3; 4] ∧ [Byte.x01] = [Byte.x01].
Proof.
  split; [solve_is_vector|]. split; [solve_is_vector|].
  split; [reflexivity|].
  apply (blob_self_delimiting [3; 4] [3; 4] [Byte.x01] [Byte.x01]);
    [solve_is_vector|solve_is_vector|reflexivity].
Defined.

(** X7 — a vector that is reused. When the header at the get position is
    complete and nothing follows it, [read_vector] into a vector that
    already holds at least the declared count of elements, so that
    [resize] allocates nothing, returns normally with the first elements
    of that vector, as many as declared: the old elements are not zeroed.
    The stream is left failed unless the count is zero. *)
Theorem read_vector_keeps_old_elements s g p data :
  length s = (g + 8)%nat → is_vector data →
  let len := le_combine (drop g s) in
  len ≤ Z.of_nat (length data) →
  ∃ ist,
    read_vector {| str := s; gpos := g; ppos := p; good := true |} data
    = inr (ist, take (Z.to_nat len) data)
    ∧ gpos ist = length s
    ∧ good ist = bool_decide (len = 0).
Proof.
  intros Hs [Hdata Hsize] len Hlen. rewrite read_vector_good by lia. cbv zeta.
  assert (take 8 (drop g s) = drop g s) as ->
    by (rewrite take_ge; [done|rewrite length_drop; lia]).
  pose proof (le_combine_bound (drop g s)) as Hb. fold len in Hb |- *.
  rewrite decide_False by lia.
  rewrite (drop_ge s (g + 8)), app_nil_l by lia.
  replace (length s - (g + 8))%nat with 0%nat by lia. rewrite drop_0.
  replace (Z.to_nat len - length data)%nat with 0%nat by lia.
  cbn [replicate]. rewrite app_nil_r.
  assert (length (take (Z.to_nat len) data) = Z.to_nat len) as Hn
    by (rewrite length_take; lia).
  assert (Forall is_DocId (take (Z.to_nat len) data)) as Hkept
    by by apply Forall_take.
  set (kept := take (Z.to_nat len) data) in *.
  rewrite <- Hn, <- (app_nil_r (object_bytes kept)).
  rewrite of_object_bytes_object_bytes by done.
  eexists. split_and!; [done|cbn [gpos]; lia|]. cbn [good].
  apply bool_decide_ext. lia.
Qed.

Lemma read_vector_keeps_old_elements_witness :
  length (le_split 8 2) = (0 + 8)%nat ∧ is_vector [5; 6; 7] ∧
  let len := le_combine (drop 0 (le_split 8 2)) in
  len ≤ Z.of_nat (length [5; 6; 7]) ∧
  ∃ ist,
    read_vector {| str := le_split 8 2; gpos := 0; ppos := 0; good := true |}
      [5; 6; 7]
    = inr (ist, take (Z.to_nat len) [5; 6; 7])
    ∧ gpos ist = length (le_split 8 2)
    ∧ good ist = bool_decide (len = 0).
Proof.
  split; [reflexivity|]. split; [solve_is_vector|].
  split; [by vm_compute|].
  apply (read_vector_keeps_old_elements (le_split 8 2) 0 0 [5; 6; 7]);
    [reflexivity|solve_is_vector|by vm_compute].
Defined.
End codec_extras_inverse.

(** ** More on the search: vectors in any order *)

Section search_extras.
Import std.
Implicit Types (v : list Z) (val : Z).

(** Where the bisection stops there is either the end of the vector or an
    element at or above [val]; no order is assumed. *)
Lemma lower_bound_loop_stop v val first len :
  (first + len ≤ length v)%nat →
  ((first + len)%nat = length v
   ∨ ∃ x, v !! (first + len)%nat = Some x ∧ val ≤ x) →
  let r := lower_bound_loop v val first len in
  (first ≤ r ≤ first + len)%nat
  ∧ (r = length v ∨ ∃ x, v !! r = Some x ∧ val ≤ x).
Proof.
  funelim (lower_bound_loop v val first len); intros Hbound Hstop.
  - pose proof (shiftr_1_lt len Hlen) as Hhalf.
    set (half := Nat.shiftr len 1) in *.
    destruct (lookup_lt_is_Some_2 v (first + half)) as [m Hm]; [lia|].
    rewrite (list_lookup_total_correct _ _ _ Hm).
    destruct (Z.ltb_spec m val) as [Hlt|Hge].
    + replace (first + len)%nat
        with (S (first + half) + (len - half - 1))%nat in Hstop by lia.
      destruct (H ltac:(lia) Hstop) as [Hr Hend]. split; [lia|done].
    + destruct (H0 ltac:(lia)) as [Hr Hend]; [right; eauto|].
      split; [lia|done].
  - replace (first + len)%nat with first in Hstop by lia.
    split; [lia|done].
Qed.

(** X8 — the insertion position is always inside the vector. For every
    vector, ascending or not, and every value, [lower_bound] returns a
    position between [0] and the size, so that the [insert] of
    [add_existing_term] gets a valid iterator; and [binary_search] never
    reports a value the vector does not hold. *)
Theorem search_is_safe v val :
  (lower_bound v val ≤ length v)%nat
  ∧ (binary_search v val = true → val ∈ v).
Proof.
  destruct (lower_bound_loop_stop v val 0 (length v)) as [Hr Hstop];
    [simpl; lia|by left|].
  fold (lower_bound v val) in Hr, Hstop. split; [simpl in Hr; lia|].
  unfold binary_search. cbv zeta.
  intros [Hne Hnlt]%andb_true_iff.
  apply negb_true_iff, Nat.eqb_neq in Hne.
  apply negb_true_iff, Z.ltb_ge in Hnlt.
  destruct Hstop as [?|(x & Hx & Hle)]; [done|].
  rewrite (list_lookup_total_correct _ _ _ Hx) in Hnlt.
  assert (x = val) as -> by lia. by eapply list_elem_of_lookup_2.
Qed.

Lemma filter_lt_all (l : list Z) val :
  Forall (λ x, x < val) l → filter (λ x, x < val) l = l.
Proof.
  induction 1 as [|x l Hx _ IH]; [done|].
  by rewrite filter_cons_True, IH by done.
Qed.

Lemma filter_lt_none (l : list Z) val :
  Forall (λ x, val ≤ x) l → filter (λ x, x < val) l = [].
Proof.
  induction 1 as [|x l Hx _ IH]; [done|].
  by rewrite filter_cons_False, IH by lia.
Qed.

(** X9 — ordered search on an ascending vector. On a strictly ascending
    vector [lower_bound] returns the number of elements below the value,
    every element before that position is below the value and every
    element from it on is at or above, and [binary_search] is true exactly
    when the vector holds the value. *)
Theorem search_on_ascending v val :
  StronglySorted Z.lt v →
  lower_bound v val = length (filter (λ x, x < val) v)
  ∧ Forall (λ x, x < val) (take (lower_bound v val) v)
  ∧ Forall (λ x, val ≤ x) (drop (lower_bound v val) v)
  ∧ (binary_search v val = true ↔ val ∈ v).
Proof.
  intros Hv. pose proof (lower_bound_spec v val Hv) as Hp.
  pose proof (partition_point_take _ _ _ Hp) as Hlo.
  pose proof (partition_point_drop _ _ _ Hp) as Hhi.
  destruct Hp as (Hlen & _). split_and!; try done.
  - rewrite <- (take_drop (lower_bound v val) v) at 2.
    rewrite filter_app, filter_lt_all, filter_lt_none by done.
    rewrite app_nil_r, length_take. lia.
  - rewrite binary_search_spec by done. apply bool_decide_eq_true.
Qed.

Lemma search_on_ascending_witness :
  StronglySorted Z.lt [1; 3; 5; 7; 9] ∧
  lower_bound [1; 3; 5; 7; 9] 6
  = length (filter (λ x, x < 6) [1; 3; 5; 7; 9])
  ∧ Forall (λ x, x < 6) (take (lower_bound [1; 3; 5; 7; 9] 6) [1; 3; 5; 7; 9])
  ∧ Forall (λ x, 6 ≤ x) (drop (lower_bound [1; 3; 5; 7; 9] 6) [1; 3; 5; 7; 9])
  ∧ (binary_search [1; 3; 5; 7; 9] 6 = true ↔ 6 ∈ [1; 3; 5; 7; 9]).
Proof.
  split; [repeat constructor; lia|].
  apply (search_on_ascending [1; 3; 5; 7; 9] 6). repeat constructor; lia.
Defined.
End search_extras.

(** ** More on the store *)

Section store_extras.
Import iidx.
Implicit Types (s : KVStore.t) (k : string) (v : list byte).

(** X10 — the store keeps the last value put. Two [insert]s under one key
    leave the store as the second alone does; and after [insert(k, v)],
    asking [exists] and [get] for any key at all, which may enter that key
    into the store, does not change that [get(k)] returns [v]. *)
Theorem insert_last_write_wins k k' v1 v2 s :
  (_ <- KVStore.insert k v1 ;; KVStore.insert k v2) s = KVStore.insert k v2 s
  ∧ ∃ s',
      (_ <- KVStore.insert k v2 ;; _ <- KVStore.exists_ k' ;;
       _ <- KVStore.get k' ;; KVStore.get k) s = inr (v2, s')
      ∧ KVStore.exists_ k s' = inr (true, s')
      ∧ KVStore.exists_ k' s' = inr (true, s').
Proof.
  split.
  - unfold bind, KVStore.insert. cbn [KVStore._store].
    by rewrite insert_insert_eq.
  - unfold bind, KVStore.insert, KVStore.exists_. cbn [KVStore._store].
    destruct (decide (k' = k)) as [->|Hne].
    + rewrite (get_present k _ v2) by (cbn; apply lookup_insert_eq).
      rewrite (get_present k _ v2) by (cbn; apply lookup_insert_eq).
      eexists. split_and!; [done|..]; cbn [KVStore._store];
        by rewrite lookup_insert_eq.
    + destruct (KVStore._store s !! k') as [v'|] eqn:Hk'.
      * rewrite (get_present k' _ v')
          by (cbn; by rewrite lookup_insert_ne).
        rewrite (get_present k _ v2) by (cbn; apply lookup_insert_eq).
        eexists. split_and!; [done|..]; cbn [KVStore._store].
        -- by rewrite lookup_insert_eq.
        -- by rewrite lookup_insert_ne, Hk'.
      * rewrite get_missing by (cbn; by rewrite lookup_insert_ne).
        rewrite (get_present k _ v2)
          by (cbn; by rewrite lookup_insert_ne, lookup_insert_eq).
        eexists. split_and!; [done|..]; cbn [KVStore._store].
        -- by rewrite lookup_insert_ne, lookup_insert_eq.
        -- by rewrite lookup_insert_eq.
Qed.
End store_extras.

(** ** More on the index: any store, one call *)

Section index_any_store.
Import iidx.
Implicit Types (idx : IIndex.t) (term : string) (d : Z).

Lemma on_kvstore_get_missing term idx :
  store_of idx !! term = None →
  IIndex.on_kvstore (KVStore.get term) idx
  = inr ([], {| IIndex._kvstore :=
                  {| KVStore._store := <[term := []]> (store_of idx) |} |}).
Proof.
  intros Hterm. destruct idx as [s]. unfold IIndex.on_kvstore.
  cbn [IIndex._kvstore] in *. by rewrite (get_missing _ _ Hterm).
Qed.

(** A lookup of a stored term, whatever its blob. *)
Lemma get_doc_vector_stored term idx b :
  store_of idx !! term = Some b →
  IIndex.get_doc_vector term idx
  = match serialize.read_vector (std.stringstream_of b) [] with
    | inl e => inl e
    | inr (_, v) => inr (Some v, idx)
    end.
Proof.
  intros Hterm. unfold IIndex.get_doc_vector, bind.
  rewrite on_kvstore_exists, Hterm.
  rewrite bool_decide_eq_true_2 by eauto.
  rewrite (on_kvstore_get_present _ _ _ Hterm). unfold lift.
  by destruct (serialize.read_vector _ _) as [e|[ist v]].
Qed.

(** [add_term] on a stored term, whatever its blob. *)
Lemma add_term_stored d term idx b :
  store_of idx !! term = Some b →
  IIndex.add_term d term idx
  = match serialize.read_vector (std.stringstream_of b) [] with
    | inl e => inl e
    | inr (_, v) =>
      if std.binary_search v d then inr (tt, idx)
      else
        match std.vector_insert (std.lower_bound v d) d v with
        | inl e => inl e
        | inr v' =>
          inr (tt, {| IIndex._kvstore :=
                        {| KVStore._store :=
                             <[term := blob_of v']> (store_of idx) |} |})
        end
    end.
Proof.
  intros Hterm. unfold IIndex.add_term, bind.
  rewrite on_kvstore_exists, Hterm.
  rewrite bool_decide_eq_true_2 by eauto. cbn [negb].
  unfold IIndex.add_existing_term, bind.
  rewrite (on_kvstore_get_present _ _ _ Hterm).
  rewrite (get_doc_vector_stored _ _ _ Hterm).
  destruct (serialize.read_vector _ _) as [e|[ist v]]; [done|].
  cbn [std.value lift].
  destruct (std.binary_search v d); [done|]. cbn [negb].
  by destruct (std.vector_insert _ d v) as [e|v'].
Qed.

Lemma read_vector_not_bad_optional_access buf e :
  serialize.read_vector (std.stringstream_of buf) [] = inl e →
  e ≠ bad_optional_access.
Proof.
  rewrite read_vector_stringstream_of. cbv zeta.
  destruct (decide _); [|done]. congruence.
Qed.

Lemma vector_insert_not_bad_optional_access pos x v e :
  std.vector_insert pos x v = inl e → e ≠ bad_optional_access.
Proof. unfold std.vector_insert. destruct (_ <=? _); congruence. Qed.

(** X11 — a lookup only reads. On every index, whatever its store holds:
    a [get_doc_vector] that returns has left the index exactly as it was,
    and it has returned absence exactly when the store has no entry for
    the term; for a term without entry it always returns; and it raises
    only for a term that is stored. *)
Theorem get_doc_vector_only_reads term idx :
  (∀ o idx', IIndex.get_doc_vector term idx = inr (o, idx') →
             idx' = idx ∧ (o = None ↔ store_of idx !! term = None))
  ∧ (store_of idx !! term = None →
     IIndex.get_doc_vector term idx = inr (None, idx))
  ∧ (∀ e, IIndex.get_doc_vector term idx = inl e →
          is_Some (store_of idx !! term)).
Proof.
  destruct (store_of idx !! term) as [b|] eqn:Hterm.
  - rewrite (get_doc_vector_stored _ _ _ Hterm).
    destruct (serialize.read_vector _ _) as [e|[ist v]].
    + split_and!; [done|done|eauto].
    + split_and!; [|done|done].
      intros o idx' [= <- <-]. split; [done|]. split; intros; done.
  - rewrite get_doc_vector_absent by done. split_and!; [|done..].
    by intros o idx' [= <- <-].
Qed.

(** X12 — what [add_term] never raises. On every index, whatever its
    store holds: the first [add_term] of a term always returns, storing
    the singleton; [add_term] raises only for a term the store already
    has, and never [std::bad_optional_access], so the [value()] of
    [add_existing_term] does not raise; and when [add_term] returns, the
    store has the term. *)
Theorem add_term_raises_only_on_stored_term d term idx :
  (store_of idx !! term = None →
   IIndex.add_term d term idx
   = inr (tt, {| IIndex._kvstore :=
                   {| KVStore._store :=
                        <[term := blob_of [d]]> (store_of idx) |} |}))
  ∧ (∀ e, IIndex.add_term d term idx = inl e →
          e ≠ bad_optional_access ∧ is_Some (store_of idx !! term))
  ∧ (∀ u idx', IIndex.add_term d term idx = inr (u, idx') →
               is_Some (store_of idx' !! term)).
Proof.
  split; [apply add_term_new|].
  destruct (store_of idx !! term) as [b|] eqn:Hterm.
  - rewrite (add_term_stored _ _ _ _ Hterm).
    destruct (serialize.read_vector _ _) as [e|[ist v]] eqn:Hread.
    { split; [|done]. intros e' [= <-].
      split; [by eapply read_vector_not_bad_optional_access|eauto]. }
    destruct (std.binary_search v d).
    { split; [done|]. intros u idx' [= _ <-]. rewrite Hterm. eauto. }
    destruct (std.vector_insert _ d v) as [e|v'] eqn:Hins.
    + split; [|done]. intros e' [= <-].
      split; [by eapply vector_insert_not_bad_optional_access|eauto].
    + split; [done|]. intros u idx' [= _ <-].
      cbn [IIndex._kvstore KVStore._store]. rewrite lookup_insert_eq. eauto.
  - rewrite add_term_new by done. split; [done|].
    intros u idx' [= _ <-].
    cbn [IIndex._kvstore KVStore._store]. rewrite lookup_insert_eq. eauto.
Qed.

(** X13 — [add_term] touches one entry. On every index, whatever its store
    holds, an [add_term] that returns has changed no entry of the store
    other than that of its own term: no other term is entered, removed or
    rewritten. *)
Theorem add_term_touches_one_entry d term term' idx :
  term' ≠ term →
  match IIndex.add_term d term idx with
  | inl _ => True
  | inr (_, idx') => store_of idx' !! term' = store_of idx !! term'
  end.
Proof.
  intros Hne. destruct (store_of idx !! term) as [b|] eqn:Hterm.
  - rewrite (add_term_stored _ _ _ _ Hterm).
    destruct (serialize.read_vector _ _) as [e|[ist v]]; [done|].
    destruct (std.binary_search v d); [done|].
    destruct (std.vector_insert _ d v) as [e|v']; [done|].
    cbn [IIndex._kvstore KVStore._store]. by rewrite lookup_insert_ne.
  - rewrite add_term_new by done.
    cbn [IIndex._kvstore KVStore._store]. by rewrite lookup_insert_ne.
Qed.

Lemma add_term_touches_one_entry_witness :
  "dog"%string ≠ "cat"%string ∧
  match IIndex.add_term 4 "cat" IIndex.new with
  | inl _ => True
  | inr (_, idx') => store_of idx' !! "dog"%string
                     = store_of IIndex.new !! "dog"%string
  end.
Proof.
  split; [discriminate|].
  apply (add_term_touches_one_entry 4 "cat" "dog" IIndex.new). discriminate.
Defined.

(** X14 — the two branches of [add_term] agree on a new term. On every
    index, [add_existing_term] called for a term the store does not have
    leaves the index exactly as [add_new_term] does: its [get] enters the
    term with the empty blob, which it then reads as the empty vector. *)
Theorem add_existing_term_on_new_term d term idx :
  store_of idx !! term = None →
  IIndex.add_existing_term d term idx = IIndex.add_new_term d term idx.
Proof.
  intros Hterm. unfold IIndex.add_existing_term, bind.
  rewrite (on_kvstore_get_missing _ _ Hterm).
  rewrite (get_doc_vector_stored term _ [])
    by (cbn [IIndex._kvstore KVStore._store]; apply lookup_insert_eq).
  change (serialize.read_vector (std.stringstream_of []) [])
    with (inr (B := std.stringstream * list Z) (A := exn)
            ({| std.str := []; std.gpos := 0; std.ppos := 0;
                std.good := false |}, [])).
  cbn [std.value lift].
  change (std.binary_search [] d) with false. cbn [negb].
  change (std.vector_insert (std.lower_bound [] d) d []) with (inr (A := exn) [d]).
  cbn [lift]. unfold IIndex.add_new_term. rewrite !on_kvstore_insert.
  cbn [IIndex._kvstore KVStore._store]. by rewrite insert_insert_eq.
Qed.

Lemma add_existing_term_on_new_term_witness :
  store_of IIndex.new !! "cat"%string = None ∧
  IIndex.add_existing_term 4 "cat" IIndex.new
  = IIndex.add_new_term 4 "cat" IIndex.new.
Proof.
  split; [reflexivity|].
  by apply (add_existing_term_on_new_term 4 "cat" IIndex.new).
Defined.

(** X15 — a [get] before a lookup shows. On every index, for a term the
    store does not have, [get_doc_vector] returns absence; once the
    store's [get] has been called for the term, [get_doc_vector] returns
    the empty vector instead. *)
Theorem get_then_lookup_is_empty_vector term idx :
  store_of idx !! term = None →
  IIndex.get_doc_vector term idx = inr (None, idx)
  ∧ (_ <- IIndex.on_kvstore (KVStore.get term) ;;
     IIndex.get_doc_vector term) idx
    = inr (Some [],
           {| IIndex._kvstore :=
                {| KVStore._store := <[term := []]> (store_of idx) |} |}).
Proof.
  intros Hterm. split; [by apply get_doc_vector_absent|].
  unfold bind. rewrite (on_kvstore_get_missing _ _ Hterm).
  by rewrite (get_doc_vector_stored term _ [])
    by (cbn [IIndex._kvstore KVStore._store]; apply lookup_insert_eq).
Qed.

Lemma get_then_lookup_is_empty_vector_witness :
  store_of IIndex.new !! "fish"%string = None ∧
  IIndex.get_doc_vector "fish" IIndex.new = inr (None, IIndex.new)
  ∧ (_ <- IIndex.on_kvstore (KVStore.get "fish") ;;
     IIndex.get_doc_vector "fish") IIndex.new
    = inr (Some [],
           {| IIndex._kvstore :=
                {| KVStore._store :=
                     <["fish"%string := []]> (store_of IIndex.new) |} |}).
Proof.
  split; [reflexivity|].
  by apply (get_then_lookup_is_empty_vector "fish" IIndex.new).
Defined.
End index_any_store.

(** ** More on the index: whole runs *)

Section run_extras.
Import iidx.
Implicit Types (idx : IIndex.t) (term : string) (L : list Z) (d : Z).
Implicit Types (ops : list (Z * string)).

(** A strictly ascending list is determined by its elements. *)
Lemma ascending_same_elements L1 L2 :
  StronglySorted Z.lt L1 → StronglySorted Z.lt L2 →
  (∀ d, d ∈ L1 ↔ d ∈ L2) → L1 = L2.
Proof.
  intros H1 H2 Hmem.
  apply (StronglySorted_unique_strong Z.lt); [intros; lia|done..|].
  apply NoDup_Permutation; [by apply StronglySorted_lt_NoDup..|done].
Qed.

Lemma StronglySorted_lt_filter (P : Z → Prop) `{∀ x, Decision (P x)} L :
  StronglySorted Z.lt L → StronglySorted Z.lt (filter P L).
Proof.
  induction 1 as [|x L _ IH Hx]; [constructor|].
  destruct (decide (P x)) as [Hp|Hp].
  - rewrite filter_cons_True by done. constructor; [done|].
    rewrite Forall_forall in Hx. apply Forall_forall.
    intros y [_ Hy]%list_elem_of_filter. by apply Hx.
  - by rewrite filter_cons_False by done.
Qed.

(** The ordered insertion of [d], written with filters. *)
Lemma ordered_insert_sorted d L :
  StronglySorted Z.lt L →
  StronglySorted Z.lt
    (filter (λ x, x < d) L ++ d :: filter (λ x, d < x) L).
Proof.
  intros HL. apply StronglySorted_app_2.
  - intros x1 x2 [Hx1 _]%list_elem_of_filter [->|Hx2]%elem_of_cons; [done|].
    apply list_elem_of_filter in Hx2 as [Hx2 _]. lia.
  - by apply StronglySorted_lt_filter.
  - constructor; [by apply StronglySorted_lt_filter|].
    apply Forall_forall. by intros y [Hy _]%list_elem_of_filter.
Qed.

Lemma elem_of_ordered_insert d L x :
  x ∈ filter (λ x, x < d) L ++ d :: filter (λ x, d < x) L ↔ x = d ∨ x ∈ L.
Proof.
  rewrite elem_of_app, elem_of_cons, !list_elem_of_filter.
  destruct (decide (x = d)) as [->|Hne]; [tauto|].
  split; [tauto|]. intros [?|?]; [done|].
  destruct (decide (x < d)); [tauto|]. right. right. split; [lia|done].
Qed.

(** X16 — only the set of pairs matters. Two feasible runs in which the
    same (doc-id, term) pairs occur, in any order and any number of times,
    both return and leave the same index: the store ends up with the same
    blob under every term. *)
Theorem index_depends_on_added_set ops1 ops2 :
  feasible ops1 → feasible ops2 →
  (∀ d term, (d, term) ∈ ops1 ↔ (d, term) ∈ ops2) →
  ∃ idx,
    add_terms ops1 IIndex.new = inr (tt, idx)
    ∧ add_terms ops2 IIndex.new = inr (tt, idx).
Proof.
  intros Hops1 Hops2 Hsame.
  destruct (add_terms_represents ops1 Hops1) as (idx1 & Hrun1 & Hrep1).
  destruct (add_terms_represents ops2 Hops2) as (idx2 & Hrun2 & Hrep2).
  exists idx1. split; [done|]. rewrite Hrun2. do 2 f_equal.
  destruct idx1 as [[m1]], idx2 as [[m2]]. do 2 f_equal.
  apply map_eq. intros term.
  specialize (Hrep1 term). specialize (Hrep2 term).
  cbn [IIndex._kvstore KVStore._store] in Hrep1, Hrep2.
  destruct (m1 !! term) as [b1|], (m2 !! term) as [b2|]; simpl in *.
  - destruct Hrep1 as (L1 & -> & Hs1 & _ & _ & Hm1).
    destruct Hrep2 as (L2 & -> & Hs2 & _ & _ & Hm2).
    do 2 f_equal. apply ascending_same_elements; [done..|].
    intros d. by rewrite Hm1, Hm2, Hsame.
  - destruct Hrep1 as ([|d L1] & _ & _ & Hne & _ & Hm1); [done|].
    destruct (Hrep2 d). apply Hsame, Hm1. by left.
  - destruct Hrep2 as ([|d L2] & _ & _ & Hne & _ & Hm2); [done|].
    destruct (Hrep1 d). apply Hsame, Hm2. by left.
  - done.
Qed.

Lemma index_depends_on_added_set_witness :
  feasible [(9, "a"); (3, "a"); (3, "b")]%string ∧
  feasible [(3, "b"); (3, "a"); (9, "a"); (3, "a")]%string ∧
  (∀ d term,
     (d, term) ∈ [(9, "a"); (3, "a"); (3, "b")]%string
     ↔ (d, term) ∈ [(3, "b"); (3, "a"); (9, "a"); (3, "a")]%string) ∧
  ∃ idx,
    add_terms [(9, "a"); (3, "a"); (3, "b")]%string IIndex.new
    = inr (tt, idx)
    ∧ add_terms [(3, "b"); (3, "a"); (9, "a"); (3, "a")]%string IIndex.new
      = inr (tt, idx).
Proof.
  split; [solve_feasible|]. split; [solve_feasible|].
  split; [intros d term; rewrite !elem_of_cons, !elem_of_nil; tauto|].
  apply (index_depends_on_added_set
           [(9, "a"); (3, "a"); (3, "b")]%string
           [(3, "b"); (3, "a"); (9, "a"); (3, "a")]%string);
    [solve_feasible|solve_feasible|].
  intros d term; rewrite !elem_of_cons, !elem_of_nil; tauto.
Defined.

(** X17 — [add_term] is an ordered insertion. In every index reached by a
    run, with room for one more call: if the lookup of [term] gave the
    vector [L] (take [L] empty when it gave absence), then after
    [add_term d term] it gives the elements of [L] below [d], then [d],
    then the elements of [L] above [d]. *)
Theorem add_term_is_ordered_insert ops d term :
  feasible (ops ++ [(d, term)]) →
  ∃ idx idx' o,
    add_terms ops IIndex.new = inr (tt, idx)
    ∧ IIndex.get_doc_vector term idx = inr (o, idx)
    ∧ IIndex.add_term d term idx = inr (tt, idx')
    ∧ IIndex.get_doc_vector term idx'
      = inr (Some (filter (λ x, x < d) (default [] o)
                     ++ d :: filter (λ x, d < x) (default [] o)), idx').
Proof.
  intros Hops. pose proof (feasible_snoc _ _ _ Hops) as (Hops' & _ & _).
  destruct (add_terms_represents ops Hops') as (idx & Hrun & Hrep).
  destruct (add_term_represents d term idx ops Hops Hrep)
    as (idx' & Hadd & Hrep').
  assert (∃ o, IIndex.get_doc_vector term idx = inr (o, idx)
               ∧ StronglySorted Z.lt (default [] o)
               ∧ ∀ x, x ∈ default [] o ↔ (x, term) ∈ ops)
    as (o & Hget & Hsorted & Hmem).
  { destruct (represents_lookup idx ops term Hops' Hrep)
      as [(L & Hget & _ & _ & Hsorted & _ & Hmem)|(Hget & _ & Hnone)].
    - by exists (Some L).
    - exists None. split_and!; [done|constructor|].
      intros x. split; [by intros ?%elem_of_nil|by intros ?%Hnone]. }
  exists idx, idx', o. split_and!; try done.
  destruct (represents_lookup idx' _ term Hops Hrep')
    as [(L' & Hget' & _ & _ & Hsorted' & _ & Hmem')|(_ & _ & Hnone)].
  - rewrite Hget'. do 3 f_equal.
    apply ascending_same_elements; [done|by apply ordered_insert_sorted|].
    intros x. by rewrite Hmem', elem_of_ordered_insert, elem_of_snoc_same, Hmem.
  - destruct (Hnone d). apply elem_of_snoc_same. by left.
Qed.

Lemma add_term_is_ordered_insert_witness :
  feasible ([(9, "a"); (3, "a")]%string ++ [(7, "a"%string)]) ∧
  ∃ idx idx' o,
    add_terms [(9, "a"); (3, "a")]%string IIndex.new = inr (tt, idx)
    ∧ IIndex.get_doc_vector "a" idx = inr (o, idx)
    ∧ IIndex.add_term 7 "a" idx = inr (tt, idx')
    ∧ IIndex.get_doc_vector "a" idx'
      = inr (Some (filter (λ x, x < 7) (default [] o)
                     ++ 7 :: filter (λ x, 7 < x) (default [] o)), idx').
Proof.
  split; [solve_feasible|].
  apply (add_term_is_ordered_insert [(9, "a"); (3, "a")]%string 7 "a").
  solve_feasible.
Defined.

Lemma string_app_assoc (a b c : string) : (a +:+ b) +:+ c = a +:+ b +:+ c.
Proof.
  induction a as [|x a IH]; [done|].
  change (String x a +:+ b) with (String x (a +:+ b)).
  change (String x (a +:+ b) +:+ c) with (String x ((a +:+ b) +:+ c)).
  by rewrite IH.
Qed.

(** The loop of [print_doc_vector] appends: what it writes is the doc-ids
    in decimal, each followed by a space. *)
Lemma print_ids_appends L cout tail :
  print_ids L cout +:+ tail
  = cout +:+ foldr (λ i text, pretty i +:+ " " +:+ text) tail L.
Proof.
  revert cout. induction L as [|i L IH]; intros cout; [done|].
  cbn [print_ids foldr]. by rewrite IH, !string_app_assoc.
Qed.

(** X18 — what [print_doc_vector] returns and prints. After every feasible
    run on an empty index, [print_doc_vector] leaves the index as it is
    and only appends to what was written to [std::cout] before. For a term
    that was added it returns the term's posting list, which is not empty,
    and appends the term, a colon and a space, each doc-id in decimal
    followed by a space, and a newline. For a term never added it returns
    the empty vector and appends the term followed by [: not found] and a
    newline. *)
Theorem print_doc_vector_after_run ops term cout :
  feasible ops →
  ∃ idx,
    add_terms ops IIndex.new = inr (tt, idx)
    ∧ ((∃ d, (d, term) ∈ ops) →
       ∃ L, L ≠ []
            ∧ IIndex.get_doc_vector term idx = inr (Some L, idx)
            ∧ print_doc_vector term (idx, cout)
              = inr (L, (idx,
                         cout +:+ term +:+ ": "
                           +:+ foldr (λ i text, pretty i +:+ " " +:+ text)
                                 newline L)))
    ∧ ((∀ d, (d, term) ∉ ops) →
       print_doc_vector term (idx, cout)
       = inr ([], (idx, cout +:+ term +:+ ": " +:+ "not found" +:+ newline))).
Proof.
  intros Hops. destruct (add_terms_represents ops Hops) as (idx & Hrun & Hrep).
  exists idx. split; [done|].
  destruct (represents_lookup idx ops term Hops Hrep)
    as [(L & Hget & _ & _ & _ & Hne & Hmem)|(Hget & _ & Hnone)].
  - split.
    + intros _. exists L. split_and!; try done.
      unfold print_doc_vector. rewrite Hget.
      by rewrite print_ids_appends, !string_app_assoc.
    + intros Hnever. destruct L as [|d L]; [done|].
      destruct (Hnever d). apply Hmem. by left.
  - split.
    + intros [d Hd]. by destruct (Hnone d).
    + intros _. unfold print_doc_vector. rewrite Hget.
      by rewrite !string_app_assoc.
Qed.

Lemma print_doc_vector_after_run_witness :
  feasible main_adds ∧
  ∃ idx,
    add_terms main_adds IIndex.new = inr (tt, idx)
    ∧ ((∃ d, (d, "dog"%string) ∈ main_adds) →
       ∃ L, L ≠ []
            ∧ IIndex.get_doc_vector "dog" idx = inr (Some L, idx)
            ∧ print_doc_vector "dog" (idx, "cat: 0 1 2 "%string)
              = inr (L, (idx,
                         "cat: 0 1 2 " +:+ "dog" +:+ ": "
                           +:+ foldr (λ i text, pretty i +:+ " " +:+ text)
                                 newline L)))
    ∧ ((∀ d, (d, "dog"%string) ∉ main_adds) →
       print_doc_vector "dog" (idx, "cat: 0 1 2 "%string)
       = inr ([], (idx, "cat: 0 1 2 " +:+ "dog" +:+ ": " +:+ "not found"
                          +:+ newline))).
Proof.
  split; [solve_feasible|].
  apply (print_doc_vector_after_run main_adds "dog" "cat: 0 1 2 ").
  solve_feasible.
Defined.
End run_extras.

(** ** Declared counts that cannot be allocated *)

Section allocation_scenarios.
Import std.

Example huge_count_bad_alloc :
  read_vector_alloc (λ n, n <? 2 ^ 32)
    (stringstream_of (le_split 8 (2 ^ 60 - 1))) []
  = inl bad_alloc.
Proof. by vm_compute. Qed.

Example count_beyond_max_size :
  read_vector_alloc (λ n, n <? 2 ^ 32)
    (stringstream_of (le_split 8 (2 ^ 60))) []
  = inl (raised length_error).
Proof. by vm_compute. Qed.

Example short_header_huge_count :
  read_vector_alloc (λ n, n <? 2 ^ 32)
    (stringstream_of (replicate 7 Byte.xff)) []
  = inl bad_alloc.
Proof. by vm_compute. Qed.

Example short_payload_small_count :
  read_vector_alloc (λ n, n <? 2 ^ 32)
    (stringstream_of (le_split 8 2 ++ le_split 8 7)) []
  = inr ({| str := le_split 8 2 ++ le_split 8 7; gpos := 16; ppos := 0;
            good := false |}, [7; 0]).
Proof. by vm_compute. Qed.
End allocation_scenarios.
